(** * Block-cipher recommender ([tree.py]): model and verified properties

    The program loads a CSV table of block ciphers, asks five yes/no
    questions, scores every cipher against the answers and prints the two
    best ones.  This file embeds its functions ([load_table],
    [normalize_value], [ask_question], [score_ciphers], [main]) and proves
    the properties stated about them.

    Conventions of the model:
    - a Python [str] is a [string]; a character stands for the code point
      of the same number (U+0000 .. U+00FF), and [PyStr.lower], [PyStr.strip]
      follow [str.lower], [str.strip] on that range;
    - a Python [int] is a [Z];
    - a row produced by [csv.DictReader] is a finite map from keys to
      values, the key [None] holding the surplus fields of a long row;
    - a [dict] whose iteration order is observed (answers, scores) is an
      association list in insertion order;
    - exceptions are values of [exn]; console and file system are threaded
      through a state-and-exception monad [Py]. *)

From Stdlib Require Import ZArith Ascii String.
From stdpp Require Import gmap strings list sorting.

Local Open Scope string_scope.
Local Open Scope list_scope.
Local Open Scope Z_scope.

(** ** Python strings *)

Module PyStr.

Definition in_range (lo hi n : N) : bool := ((lo <=? n) && (n <=? hi))%N.

(** [str.lower] on one code point below 256: A-Z, and the Latin-1
    capitals U+00C0 .. U+00DE except the multiplication sign U+00D7. *)
Definition lower_char (c : ascii) : ascii :=
  let n := N_of_ascii c in
  if in_range 65 90 n || (in_range 192 222 n && negb (n =? 215)%N)
  then ascii_of_N (n + 32) else c.

Fixpoint lower (s : string) : string :=
  match s with
  | EmptyString => EmptyString
  | String c s' => String (lower_char c) (lower s')
  end.

(** The code points below 256 that [str.strip] removes. *)
Definition is_space (c : ascii) : bool :=
  let n := N_of_ascii c in
  in_range 9 13 n || in_range 28 32 n || (n =? 133)%N || (n =? 160)%N.

Fixpoint lstrip (s : string) : string :=
  match s with
  | EmptyString => EmptyString
  | String c s' => if is_space c then lstrip s' else s
  end.

Fixpoint rstrip (s : string) : string :=
  match s with
  | EmptyString => EmptyString
  | String c s' =>
      match rstrip s' with
      | EmptyString => if is_space c then EmptyString else String c EmptyString
      | r => String c r
      end
  end.

Definition strip (s : string) : string := rstrip (lstrip s).

(** [sep.join(l)] *)
Fixpoint join (sep : string) (l : list string) : string :=
  match l with
  | [] => ""
  | [x] => x
  | x :: l' => x +:+ sep +:+ join sep l'
  end.

End PyStr.

(** ** Response normalizer *)

Definition mappings : gmap string (gmap string (list string)) :=
  list_to_map
    [ ("Security Level",
        list_to_map [ ("high", ["high"; "very high"]);
                      ("medium", ["medium"]);
                      ("low", ["low"]) ]);
      ("Speed",
        list_to_map [ ("high", ["high"]);
                      ("medium", ["medium"]);
                      ("low", ["low"]) ]);
      ("Memory Usage",
        list_to_map [ ("high", ["high"]);
                      ("medium", ["medium"]);
                      ("low", ["low"]) ]);
      ("Hardware Compatibility",
        list_to_map [ ("high", ["yes"]);
                      ("low", ["no"]) ]);
      ("Energy Efficiency",
        list_to_map [ ("high", ["high"]);
                      ("medium", ["medium"]);
                      ("low", ["low"]) ]) ].

(** [attribute in mappings and value.lower() in mappings[attribute]]
    selects the table entry; everything else falls through to the
    one-element list. *)
Definition normalize_value (attribute value : string) : list string :=
  match mappings !! attribute with
  | Some by_answer =>
      match by_answer !! PyStr.lower value with
      | Some matches => matches
      | None => [PyStr.lower value]
      end
  | None => [PyStr.lower value]
  end.

(** ** Python values, exceptions and dictionaries *)

(** What a row of [csv.DictReader] can hold: a field of the file, [None]
    (the [restval] of a short row), or the list of surplus fields of a
    long row (stored under the [restkey], which is [None]). *)
Inductive pyval :=
  | VStr (s : string)
  | VNone
  | VList (l : list string).

#[global] Instance pyval_eq_dec : EqDecision pyval.
Proof. solve_decision. Defined.

(** A row: keys are column names ([Some name]) or the [restkey] ([None]). *)
Abbreviation row := (gmap (option string) pyval).

Inductive exn :=
  | OSError (path : string)      (* [open] failed, e.g. FileNotFoundError *)
  | ReadError                    (* decoding or tokenising the file failed *)
  | IndexError
  | ValueError (msg : string)
  | KeyError (k : pyval)
  | AttributeError
  | TypeError
  | EOFError.

Inductive result (A : Type) :=
  | Ok (a : A)
  | Raise (e : exn).
Arguments Ok {A} a.
Arguments Raise {A} e.

#[global] Instance result_ret : MRet result := λ A a, Ok a.
#[global] Instance result_bind : MBind result := λ A B f m,
  match m with
  | Ok a => f a
  | Raise e => Raise e
  end.

(** A loop whose body updates an accumulator and may raise. *)
Fixpoint foldM {A B} (body : B → A → result B) (acc : B) (l : list A) : result B :=
  match l with
  | [] => Ok acc
  | x :: l' => acc' ← body acc x; foldM body acc' l'
  end.

(** [d[k]] on a row, for a column name [k]. *)
Definition getitem (d : row) (k : string) : result pyval :=
  match d !! Some k with
  | Some v => Ok v
  | None => Raise (KeyError (VStr k))
  end.

(** [v.strip()]: only a [str] has the method. *)
Definition strip_method (v : pyval) : result string :=
  match v with
  | VStr s => Ok (PyStr.strip s)
  | _ => Raise AttributeError
  end.

(** Insertion-ordered dictionaries. *)
Section Dict.
Context {K V : Type} `{EqDecision K}.

Fixpoint dict_get (d : list (K * V)) (k : K) : option V :=
  match d with
  | [] => None
  | (k', v) :: d' => if decide (k = k') then Some v else dict_get d' k
  end.

(** [d[k] = v]: an existing key keeps its position, a new one goes last. *)
Fixpoint dict_set (d : list (K * V)) (k : K) (v : V) : list (K * V) :=
  match d with
  | [] => [(k, v)]
  | (k', v') :: d' =>
      if decide (k = k') then (k', v) :: d' else (k', v') :: dict_set d' k v
  end.
End Dict.

(** ** Scorer *)

Abbreviation scores_t := (list (pyval * Z)).

Definition exact_match_score : Z := 3.
Definition weak_match_score : Z := 1.
Definition opposite_match_score : Z := -2.

(** Using a value as a dictionary key hashes it; a list is unhashable. *)
Definition hashable (k : pyval) : result pyval :=
  match k with
  | VList _ => Raise TypeError
  | _ => Ok k
  end.

(** [scores = {cipher["Cipher"]: 0 for cipher in ciphers}] *)
Definition init_scores (ciphers : list row) : result scores_t :=
  foldM (λ scores cipher,
           name ← getitem cipher "Cipher";
           name ← hashable name;
           Ok (dict_set scores name 0))
        [] ciphers.

(** [scores[name] += delta] *)
Definition dict_add (scores : scores_t) (name : pyval) (delta : Z) : result scores_t :=
  name ← hashable name;
  match dict_get scores name with
  | Some old => Ok (dict_set scores name (old + delta))
  | None => Raise (KeyError name)
  end.

(** Body of the inner loop, for one cipher and one item of [answers]. *)
Definition score_answer (cipher : row) (scores : scores_t)
    (item : string * string) : result scores_t :=
  let '(attribute, value) := item in
  if decide (value = "unknown") then Ok scores
  else
    let normalized_values := normalize_value attribute value in
    raw ← getitem cipher attribute;
    stripped ← strip_method raw;
    let cipher_value := PyStr.lower stripped in
    if bool_decide (cipher_value ∈ normalized_values) then
      name ← getitem cipher "Cipher";
      dict_add scores name exact_match_score
    else if bool_decide (PyStr.lower value = "high")
            && bool_decide (cipher_value = "medium") then
      name ← getitem cipher "Cipher";
      dict_add scores name weak_match_score
    else if bool_decide (PyStr.lower value = "low")
            && bool_decide (cipher_value = "high") then
      name ← getitem cipher "Cipher";
      dict_add scores name opposite_match_score
    else Ok scores.

Definition score_cipher (answers : list (string * string))
    (scores : scores_t) (cipher : row) : result scores_t :=
  foldM (score_answer cipher) scores answers.

(** [answers] is given by its items, in the dictionary's order. *)
Definition score_ciphers (ciphers : list row) (answers : list (string * string))
    : result scores_t :=
  scores ← init_scores ciphers;
  foldM (score_cipher answers) scores ciphers.

(** ** Console, file system and the [Py] monad *)

(** What the program writes to standard output.  A [print] of a Python
    object carries the object, not its text. *)
Inductive event :=
  | Print (s : string)
  | PrintSampleRow (r : row)           (* [print("Sample row from CSV:", r)] *)
  | PrintLoadError (e : exn)           (* [print(f"Error loading or validating CSV: {e}")] *)
  | PrintAnswers (a : list (string * string))
  | PrintRecommendation (cipher : pyval) (score : Z) (explanation : pyval)
                                       (* [print(f"- {cipher}: Score {score}. {explanation}")] *)
  | Prompt (s : string).               (* the prompt written by [input(s)] *)

(** [files path] is what [csv.reader] yields for the file at [path], as a
    list of lists of fields, or the exception raised by opening or reading
    it.  [stdin] holds the lines still to be read. *)
Record world := World {
  files : string → result (list (list string));
  stdin : list string;
  stdout : list event
}.

Definition Py (A : Type) : Type := world → result A * world.

#[global] Instance Py_ret : MRet Py := λ A a w, (Ok a, w).
#[global] Instance Py_bind : MBind Py := λ A B f m w,
  match m w with
  | (Ok a, w') => f a w'
  | (Raise e, w') => (Raise e, w')
  end.

Definition raise {A} (e : exn) : Py A := λ w, (Raise e, w).

Definition lift {A} (r : result A) : Py A := λ w, (r, w).

(** [try: body  except Exception as e: handler(e)] *)
Definition try_except {A} (body : Py A) (handler : exn → Py A) : Py A := λ w,
  match body w with
  | (Ok a, w') => (Ok a, w')
  | (Raise e, w') => handler e w'
  end.

Definition emit (e : event) : Py unit := λ w,
  (Ok (), World (files w) (stdin w) (stdout w ++ [e])).

Definition print (s : string) : Py unit := emit (Print s).

(** [for x in l: body x] *)
Fixpoint for_each {A} (l : list A) (body : A → Py unit) : Py unit :=
  match l with
  | [] => mret ()
  | x :: l' => body x;; for_each l' body
  end.

(** ** Dataset loader *)

(** [dict(zip(fieldnames, fields))]: on a repeated name the last field wins. *)
Definition dict_zip (fieldnames fields : list string) : row :=
  foldl (λ d kv, <[Some kv.1 := VStr kv.2]> d) ∅ (zip fieldnames fields).

(** One row of [csv.DictReader] (default [restkey] and [restval]). *)
Definition dict_row (fieldnames fields : list string) : row :=
  let d := dict_zip fieldnames fields in
  let lf := length fieldnames in
  let lr := length fields in
  if (lf <? lr)%nat then <[None := VList (drop lf fields)]> d
  else if (lr <? lf)%nat then foldl (λ d key, <[Some key := VNone]> d) d (drop lr fieldnames)
  else d.

(** [[row for row in csv.DictReader(csv_file)]]: the first line gives the
    field names, blank lines are skipped. *)
Definition DictReader (lines : list (list string)) : list row :=
  match lines with
  | [] => []
  | fieldnames :: data =>
      dict_row fieldnames <$> filter (λ fields, fields ≠ []) data
  end.

Definition required_columns : list string :=
  [ "Cipher"; "Speed"; "Security Level"; "Memory Usage";
    "Hardware Compatibility"; "Energy Efficiency" ].

(** [ciphers[0]] *)
Definition first_row (ciphers : list row) : Py row :=
  match ciphers with
  | c :: _ => mret c
  | [] => raise IndexError
  end.

Definition load_table (file_path : string) : Py (list row) :=
  try_except
    (lines ← (λ w, (files w file_path, w));
     let ciphers := DictReader lines in
     for_each required_columns (λ col,
       first ← first_row ciphers;
       if decide (first !! Some col = None)
       then raise (ValueError ("Missing required column: " +:+ col))
       else mret ());;
     print "CSV structure validated successfully.";;
     first ← first_row ciphers;
     emit (PrintSampleRow first);;
     mret ciphers)
    (λ e, emit (PrintLoadError e);; mret []).

(** ** Interactive prompter *)

(** [if options:] holds for a non-empty list. *)
Definition truthy (options : option (list string)) : bool :=
  match options with
  | Some (_ :: _) => true
  | _ => false
  end.

Definition question_line (question : string) (options : option (list string)) : string :=
  if truthy options
  then question +:+ " (Options: " +:+ PyStr.join ", " (default [] options) +:+ ")"
  else question +:+ " (yes/no/I don't know)".

(** The [while True] loop, by recursion on the lines that remain on
    standard input; [input] raises [EOFError] when none is left. *)
Fixpoint ask_loop (question : string) (options : option (list string))
    (inp : list string) (out : list event) : result string * list string * list event :=
  let out := out ++ [Print (question_line question options); Prompt "> "] in
  match inp with
  | [] => (Raise EOFError, [], out)
  | line :: inp' =>
      let response := PyStr.lower (PyStr.strip line) in
      if negb (truthy options)
         && bool_decide (response ∈ ["yes"; "no"; "i don't know"])
      then (Ok response, inp', out)
      else if truthy options
              && bool_decide (response ∈ (PyStr.lower <$> default [] options))
      then (Ok response, inp', out)
      else ask_loop question options inp'
             (out ++ [Print "Invalid input. Please try again."])
  end.

Definition ask_question (question : string) (options : option (list string))
    : Py string := λ w,
  let '(r, inp, out) := ask_loop question options (stdin w) (stdout w) in
  (r, World (files w) inp out).

(** ** Ranker and reporter *)

(** A stable sort by ascending score: each element is put in front of the
    first element whose score is not smaller. *)
Fixpoint insert_by_score (x : pyval * Z) (l : scores_t) : scores_t :=
  match l with
  | [] => [x]
  | y :: l' => if x.2 <=? y.2 then x :: y :: l' else y :: insert_by_score x l'
  end.

Definition stable_sort (l : scores_t) : scores_t := foldr insert_by_score [] l.

(** [sorted(items, key=lambda x: x[1], reverse=True)]: the list is
    reversed, sorted stably in ascending order, and reversed again. *)
Definition sorted_reverse (items : scores_t) : scores_t :=
  reverse (stable_sort (reverse items)).

Definition no_explanation : pyval := VStr "No explanation available".

(** [next((c.get("Explanation", ...) for c in ciphers if c["Cipher"] == cipher), ...)] *)
Fixpoint find_explanation (ciphers : list row) (cipher : pyval) : result pyval :=
  match ciphers with
  | [] => Ok no_explanation
  | c :: rest =>
      name ← getitem c "Cipher";
      if decide (name = cipher)
      then Ok (default no_explanation (c !! Some "Explanation"))
      else find_explanation rest cipher
  end.

Definition report (ciphers : list row) (sorted_ciphers : scores_t) : Py unit :=
  for_each (take 2 sorted_ciphers) (λ entry,
    explanation ← lift (find_explanation ciphers entry.1);
    emit (PrintRecommendation entry.1 entry.2 explanation)).

(** ** Entry point *)

Definition nl : string := String (ascii_of_nat 10) "".

Definition table_path : string := "block_cipher_implementation_usage.csv".

(** The question texts with their attributes. *)
Definition questions : list (string * string) :=
  [ ("Is high security a priority?", "Security Level");
    ("Is speed critical for your use case?", "Speed");
    ("Do you need low memory consumption?", "Memory Usage");
    ("Does your system support hardware acceleration?", "Hardware Compatibility");
    ("Is low energy consumption required?", "Energy Efficiency") ].

(** [{"yes": "High", "no": "Low", "i don't know": "unknown"}.get(answer, answer)] *)
Definition translate (answer : string) : string :=
  default answer
    (dict_get [("yes", "High"); ("no", "Low"); ("i don't know", "unknown")] answer).

(** The loop over [questions], filling [user_answers]. *)
Fixpoint collect_answers (qs : list (string * string))
    (user_answers : list (string * string)) : Py (list (string * string)) :=
  match qs with
  | [] => mret user_answers
  | q :: qs' =>
      answer ← ask_question q.1 None;
      collect_answers qs' (dict_set user_answers q.2 (translate answer))
  end.

Definition main : Py unit :=
  ciphers ← load_table table_path;
  match ciphers with
  | [] => print "Unable to load or validate the CSV file. Exiting."
  | _ :: _ =>
      print "Welcome to the Block Cipher Decision Tree!";;
      print "Answer the following questions to find the best cipher for your needs.";;
      user_answers ← collect_answers questions [];
      print (nl +:+ "Collected User Answers:");;
      emit (PrintAnswers user_answers);;
      scores ← lift (score_ciphers ciphers user_answers);
      let sorted_ciphers := sorted_reverse scores in
      print (nl +:+ "Recommended Ciphers (Top 2):");;
      report ciphers sorted_ciphers
  end.

(** * Specification-level definitions *)

(** The name under which a record is scored: [cipher["Cipher"]]. *)
Definition cipher_name (cipher : row) : pyval :=
  default VNone (cipher !! Some "Cipher").

(** The record's value for an attribute, stripped and lower-cased. *)
Definition candidate_value (cipher : row) (attribute : string) : string :=
  match cipher !! Some attribute with
  | Some (VStr s) => PyStr.lower (PyStr.strip s)
  | _ => ""
  end.

(** The scoring rules as the specification words them: exact match, else
    weak match, else opposite match, else nothing. *)
Definition contribution (attribute answer cipher_value : string) : Z :=
  if bool_decide (cipher_value ∈ normalize_value attribute answer) then 3
  else if bool_decide (PyStr.lower answer = "high" ∧ cipher_value = "medium") then 1
  else if bool_decide (PyStr.lower answer = "low" ∧ cipher_value = "high") then -2
  else 0.

(** The items of the answer map whose answer is not ["unknown"]. *)
Definition answered (answers : list (string * string)) : list (string * string) :=
  filter (λ item, item.2 ≠ "unknown") answers.

Definition Zsum (l : list Z) : Z := foldr Z.add 0 l.

(** Sum of the contributions of one record over the answered attributes. *)
Definition row_score (answers : list (string * string)) (cipher : row) : Z :=
  Zsum ((λ item, contribution item.1 item.2 (candidate_value cipher item.1))
          <$> answered answers).

(** Sum of the row scores of all records bearing [name]. *)
Definition name_score (answers : list (string * string)) (ciphers : list row)
    (name : pyval) : Z :=
  Zsum (row_score answers <$> filter (λ c, cipher_name c = name) ciphers).

(** A record can be scored when its ["Cipher"] entry exists and is
    hashable, and it holds a string for every answered attribute. *)
Definition has_name (cipher : row) : bool :=
  match cipher !! Some "Cipher" with
  | Some (VStr _) | Some VNone => true
  | _ => false
  end.

Definition has_value (cipher : row) (attribute : string) : bool :=
  match cipher !! Some attribute with
  | Some (VStr _) => true
  | _ => false
  end.

Definition scorable (answers : list (string * string)) (cipher : row) : bool :=
  has_name cipher && forallb (λ item, has_value cipher item.1) (answered answers).

(** The elements of a list in order of first occurrence. *)
Fixpoint first_occurrences (l : list pyval) : list pyval :=
  match l with
  | [] => []
  | x :: l' => x :: filter (λ y, y ≠ x) (first_occurrences l')
  end.

(** What one item of the answer map adds to the score of a record. *)
Definition item_contribution (cipher : row) (item : string * string) : Z :=
  if decide (item.2 = "unknown") then 0
  else contribution item.1 item.2 (candidate_value cipher item.1).

(** The score map right after initialisation, from the names in dataset
    order: every name is set to 0, a repeated name keeping its position. *)
Definition init_from (acc : scores_t) (names : list pyval) : scores_t :=
  foldl (λ acc name, dict_set acc name 0) acc names.

Definition all_scorable (answers : list (string * string)) (ciphers : list row) : bool :=
  forallb (scorable answers) ciphers.

(** The explanation of the first record bearing [name], if any. *)
Definition explanation_for (ciphers : list row) (name : pyval) : pyval :=
  match head (filter (λ c, cipher_name c = name) ciphers) with
  | Some c => default no_explanation (c !! Some "Explanation")
  | None => no_explanation
  end.

(** The line printed for one entry of the ranking. *)
Definition recommendation (ciphers : list row) (entry : pyval * Z) : event :=
  PrintRecommendation entry.1 entry.2 (explanation_for ciphers entry.1).

(** A small dataset: the header and two complete rows. *)
Definition sample_lines : list (list string) :=
  [ required_columns;
    ["AES"; "medium"; "high"; "low"; "yes"; "high"];
    ["Blowfish"; "low"; "low"; "low"; "no"; "low"] ].

Definition sample_ciphers : list row := DictReader sample_lines.

Definition sample_answers : list (string * string) :=
  [ ("Security Level", "High"); ("Speed", "unknown"); ("Memory Usage", "unknown");
    ("Hardware Compatibility", "unknown"); ("Energy Efficiency", "unknown") ].

(** Orders on the entries of the score map. *)
Definition score_le (x y : pyval * Z) : Prop := x.2 ≤ y.2.
Definition score_ge (x y : pyval * Z) : Prop := y.2 ≤ x.2.

(** The first required column that the record lacks, if any. *)
Definition missing_column (first : row) : option string :=
  head (filter (λ col, first !! Some col = None) required_columns).

(** What [load_table] returns and prints, from what the file system
    yields for the path. *)
Definition load_outcome (read : result (list (list string))) : list row * list event :=
  match read with
  | Raise e => ([], [PrintLoadError e])
  | Ok lines =>
      match DictReader lines with
      | [] => ([], [PrintLoadError IndexError])
      | first :: rest =>
          match missing_column first with
          | Some col =>
              ([], [PrintLoadError (ValueError ("Missing required column: " +:+ col))])
          | None =>
              (first :: rest,
               [Print "CSV structure validated successfully."; PrintSampleRow first])
          end
      end
  end.

Definition write (w : world) (out : list event) : world :=
  World (files w) (stdin w) (stdout w ++ out).

(** A file whose only data line gives the cipher name and nothing else. *)
Definition short_row_world : world :=
  World (λ _, Ok [required_columns; ["AES"]]) [] [].

(** A file whose header lacks the ["Cipher"] column. *)
Definition no_cipher_world : world :=
  World (λ _, Ok [ ["Name"; "Speed"; "Security Level"; "Memory Usage";
                    "Hardware Compatibility"; "Energy Efficiency"];
                   ["AES"; "medium"; "high"; "low"; "yes"; "high"] ])
        ["yes"; "no"] [].

(** The console session of the scenario: "yes" to the first question,
    "i don't know" to the four others, on the sample dataset. *)
Definition sample_world : world :=
  World (λ path, if decide (path = table_path) then Ok sample_lines
                 else Raise (OSError path))
        ["yes"; "i don't know"; "i don't know"; "i don't know"; "i don't know"]
        [].

(** A dataset in which the name AES is borne by two records. *)
Definition duplicate_lines : list (list string) :=
  [ required_columns ++ ["Explanation"];
    ["AES"; "medium"; "high"; "low"; "yes"; "high"; "first record"];
    ["Blowfish"; "low"; "low"; "low"; "no"; "low"; "other"];
    ["AES"; "high"; "medium"; "low"; "yes"; "high"; "second record"] ].

Definition duplicate_ciphers : list row := DictReader duplicate_lines.

(** A dataset and answers giving the scores 5, 5 and 3. *)
Definition tie_ciphers : list row :=
  DictReader
    [ required_columns;
      ["A"; "medium"; "high"; "medium"; "yes"; "high"];
      ["B"; "medium"; "high"; "medium"; "no"; "low"];
      ["C"; "low"; "very high"; "low"; "no"; "low"] ].

Definition tie_answers : list (string * string) :=
  [ ("Security Level", "High"); ("Speed", "High"); ("Memory Usage", "High");
    ("Hardware Compatibility", "unknown"); ("Energy Efficiency", "unknown") ].

(** The match sets of the table, entry by entry: attribute, lower-cased
    answer, matching dataset values. *)
Definition documented_match_sets : list (string * string * list string) :=
  [ ("Security Level", "high", ["high"; "very high"]);
    ("Security Level", "medium", ["medium"]);
    ("Security Level", "low", ["low"]);
    ("Speed", "high", ["high"]);
    ("Speed", "medium", ["medium"]);
    ("Speed", "low", ["low"]);
    ("Memory Usage", "high", ["high"]);
    ("Memory Usage", "medium", ["medium"]);
    ("Memory Usage", "low", ["low"]);
    ("Hardware Compatibility", "high", ["yes"]);
    ("Hardware Compatibility", "low", ["no"]);
    ("Energy Efficiency", "high", ["high"]);
    ("Energy Efficiency", "medium", ["medium"]);
    ("Energy Efficiency", "low", ["low"]) ].

(** [attribute] has an entry in [mappings] and [answer] has one under it. *)
Definition table_entry (attribute answer : string) : option (list string) :=
  by_answer ← mappings !! attribute; by_answer !! answer.

(** The responses [ask_question] accepts: the lower-cased options when a
    non-empty option list is given, the three fixed answers otherwise. *)
Definition accepted (options : option (list string)) : list string :=
  if truthy options then PyStr.lower <$> default [] options
  else ["yes"; "no"; "i don't know"].

(** A line of input that passes the validation of [ask_question]. *)
Definition valid_line (options : option (list string)) (line : string) : bool :=
  bool_decide (PyStr.lower (PyStr.strip line) ∈ accepted options).

(** What one pass of the prompt loop writes before it reads a line, and
    what the passes over a list of rejected lines write. *)
Definition ask_events (question : string) (options : option (list string)) : list event :=
  [Print (question_line question options); Prompt "> "].

Definition retry_events (question : string) (options : option (list string))
    (rejected : list string) : list event :=
  concat ((λ _, ask_events question options
                ++ [Print "Invalid input. Please try again."]) <$> rejected).

(** The lines of the input that [ask_question] would accept. *)
Definition valid_lines (options : option (list string)) (inp : list string) : list string :=
  filter (λ l, valid_line options l = true) inp.

(** A record holding a string under every required column. *)
Definition complete_row (cipher : row) : bool :=
  forallb (has_value cipher) required_columns.

(** The two lines [main] prints before the questions, and the three
    around the answers and the ranking. *)
Definition welcome_events : list event :=
  [ Print "Welcome to the Block Cipher Decision Tree!";
    Print "Answer the following questions to find the best cipher for your needs." ].

Definition answers_events (user_answers : list (string * string)) : list event :=
  [ Print (nl +:+ "Collected User Answers:"); PrintAnswers user_answers ].

Definition ranking_header : event := Print (nl +:+ "Recommended Ciphers (Top 2):").

(** A complete dataset with a single cipher, and a console with the five
    answers among other lines. *)
Definition single_world : world :=
  World (λ _, Ok [ required_columns;
                   ["AES"; "medium"; "high"; "low"; "yes"; "high"] ])
        ["y"; "Yes"; "no"; " NO"; "i don't know"; "x"; "yes"; "later"] [].

(** The sample dataset with a line cut short after the cipher name. *)
Definition crash_world : world :=
  World (λ _, Ok [ required_columns;
                   ["AES"; "medium"; "high"; "low"; "yes"; "high"];
                   ["Blowfish"] ])
        ["yes"; "yes"; "yes"; "yes"; "yes"] [].

(** The sample dataset and a console that ends after three answers. *)
Definition eof_world : world :=
  World (λ _, Ok sample_lines) ["yes"; "no"; "what?"; "yes"] [].

(** The sample answers in another order. *)
Definition shuffled_answers : list (string * string) :=
  [ ("Energy Efficiency", "unknown"); ("Speed", "unknown");
    ("Security Level", "High"); ("Hardware Compatibility", "unknown");
    ("Memory Usage", "unknown") ].

(** The answer map obtained from the valid lines of the input, taken in
    order, one per question. *)
Definition answers_of (inp : list string) : list (string * string) :=
  foldl (λ acc ql, dict_set acc ql.1.2 (translate (PyStr.lower (PyStr.strip ql.2))))
        [] (zip questions (valid_lines None inp)).

(** * Properties *)

(** ** Response normalizer *)

Ltac split_lookup H :=
  repeat (rewrite list_to_map_cons in H; cbn [fst snd] in H;
          apply lookup_insert_Some in H as [[<- <-]|[_ H]]);
  try (rewrite list_to_map_nil in H; by apply lookup_empty_Some in H).

Lemma table_entry_documented attribute answer matches :
  table_entry attribute answer = Some matches ↔
  (attribute, answer, matches) ∈ documented_match_sets.
Proof.
  split.
  - unfold table_entry. intros H.
    destruct (mappings !! attribute) as [by_answer|] eqn:Hattr; [|done].
    cbn in H. unfold mappings in Hattr.
    split_lookup Hattr; split_lookup H;
      unfold documented_match_sets; set_solver.
  - unfold documented_match_sets. rewrite !elem_of_cons, elem_of_nil.
    intros H. repeat (destruct H as [H|H]; [by simplify_eq|]). done.
Qed.

Lemma normalize_value_entry attribute value :
  normalize_value attribute value =
  default [PyStr.lower value] (table_entry attribute (PyStr.lower value)).
Proof.
  unfold normalize_value, table_entry.
  destruct (mappings !! attribute) as [by_answer|]; [|done]. cbn.
  by destruct (by_answer !! PyStr.lower value).
Qed.

(** C2: for every attribute with an entry in the mapping table and every
    answer whose lower-cased form has an entry under it, [normalize_value]
    returns exactly that entry's match set, which is the documented one. *)
Theorem normalize_value_mapped (attribute value : string) (matches : list string) :
  table_entry attribute (PyStr.lower value) = Some matches →
  normalize_value attribute value = matches
  ∧ (attribute, PyStr.lower value, matches) ∈ documented_match_sets.
Proof.
  intros H. split.
  - by rewrite normalize_value_entry, H.
  - by apply table_entry_documented.
Qed.

Lemma normalize_value_mapped_witness :
  normalize_value "Security Level" "high" = ["high"; "very high"]
  ∧ normalize_value "Hardware Compatibility" "High" = ["yes"]
  ∧ normalize_value "Hardware Compatibility" "low" = ["no"].
Proof.
  split; [|split].
  - apply (normalize_value_mapped "Security Level" "high"). reflexivity.
  - apply (normalize_value_mapped "Hardware Compatibility" "High"). reflexivity.
  - apply (normalize_value_mapped "Hardware Compatibility" "low"). reflexivity.
Defined.

(** C3: when the attribute has no entry in the mapping table, or the
    lower-cased answer has no entry under that attribute, [normalize_value]
    returns the one-element list holding the lower-cased answer. *)
Theorem normalize_value_fallback (attribute value : string) :
  (mappings !! attribute = None
   ∨ ∃ by_answer, mappings !! attribute = Some by_answer
                  ∧ by_answer !! PyStr.lower value = None) →
  normalize_value attribute value = [PyStr.lower value].
Proof.
  unfold normalize_value. intros [->|(by_answer & -> & ->)]; done.
Qed.

Lemma normalize_value_fallback_witness :
  normalize_value "Block Size" "High" = ["high"]
  ∧ normalize_value "Hardware Compatibility" "Medium" = ["medium"].
Proof.
  split.
  - apply (normalize_value_fallback "Block Size" "High"). left. reflexivity.
  - apply (normalize_value_fallback "Hardware Compatibility" "Medium").
    right. eexists. split; reflexivity.
Defined.

(** ** Dictionaries *)

Section DictFacts.
Context {K V : Type} `{EqDecision K}.
Implicit Types (d : list (K * V)) (k : K) (v : V).

Lemma dict_get_set d k v k' :
  dict_get (dict_set d k v) k' = if decide (k' = k) then Some v else dict_get d k'.
Proof.
  induction d as [|[k0 v0] d IH]; simpl.
  - by repeat case_decide.
  - repeat (case_decide; simpl; simplify_eq); done.
Qed.

Lemma dict_get_None d k : dict_get d k = None ↔ k ∉ d.*1.
Proof.
  induction d as [|[k0 v0] d IH]; simpl.
  - set_solver.
  - case_decide; set_solver.
Qed.

Lemma dict_get_is_Some d k : is_Some (dict_get d k) ↔ k ∈ d.*1.
Proof.
  rewrite <-not_eq_None_Some, dict_get_None.
  split; [apply dec_stable | auto].
Qed.

Lemma dict_set_keys_old d k v : k ∈ d.*1 → (dict_set d k v).*1 = d.*1.
Proof.
  induction d as [|[k0 v0] d IH]; simpl; [set_solver|].
  intros Hin. case_decide; simpl; [done|]. f_equal. apply IH. set_solver.
Qed.

Lemma dict_set_keys_new d k v : k ∉ d.*1 → (dict_set d k v).*1 = d.*1 ++ [k].
Proof.
  induction d as [|[k0 v0] d IH]; simpl; [done|].
  intros Hin. case_decide; simpl; [set_solver|]. f_equal. apply IH. set_solver.
Qed.

Lemma dict_set_same d k v : dict_get d k = Some v → dict_set d k v = d.
Proof.
  induction d as [|[k0 v0] d IH]; simpl; [done|].
  case_decide; [by intros [= ->]|]. intros. f_equal. by apply IH.
Qed.

Lemma dict_set_set d k v v' : dict_set (dict_set d k v) k v' = dict_set d k v'.
Proof.
  induction d as [|[k0 v0] d IH]; simpl.
  - by rewrite decide_True.
  - case_decide; simpl; [by rewrite decide_True|].
    by rewrite decide_False, IH.
Qed.
End DictFacts.

(** ** Scorer *)

Lemma has_name_getitem cipher :
  has_name cipher = true →
  cipher !! Some "Cipher" = Some (cipher_name cipher)
  ∧ getitem cipher "Cipher" = Ok (cipher_name cipher)
  ∧ hashable (cipher_name cipher) = Ok (cipher_name cipher).
Proof.
  unfold has_name, getitem, cipher_name.
  destruct (cipher !! Some "Cipher") as [[]|]; by simpl.
Qed.

Lemma has_value_getitem cipher attribute :
  has_value cipher attribute = true →
  ∃ s, getitem cipher attribute = Ok (VStr s)
       ∧ candidate_value cipher attribute = PyStr.lower (PyStr.strip s).
Proof.
  unfold has_value, getitem, candidate_value.
  destruct (cipher !! Some attribute) as [[]|]; naive_solver.
Qed.

Lemma row_score_cons answers cipher item :
  row_score (item :: answers) cipher
  = item_contribution cipher item + row_score answers cipher.
Proof.
  unfold row_score, answered, item_contribution.
  rewrite filter_cons. repeat case_decide; simpl; done || lia.
Qed.

(** One pass of the inner loop body adds the item's contribution to the
    entry of the record's name and touches nothing else. *)
Lemma score_answer_spec cipher scores item old :
  has_name cipher = true →
  (item.2 ≠ "unknown" → has_value cipher item.1 = true) →
  dict_get scores (cipher_name cipher) = Some old →
  score_answer cipher scores item
  = Ok (dict_set scores (cipher_name cipher) (old + item_contribution cipher item)).
Proof.
  intros Hname Hval Hold. destruct item as [attribute value]; simpl in *.
  unfold item_contribution; simpl. case_decide as Hunk.
  { by rewrite Z.add_0_r, dict_set_same. }
  destruct (has_value_getitem _ _ (Hval Hunk)) as (s & -> & ->); simpl.
  destruct (has_name_getitem _ Hname) as (_ & Hget & Hhash).
  unfold contribution, dict_add.
  rewrite Hget; simpl. rewrite Hhash; simpl. rewrite Hold.
  rewrite !bool_decide_and.
  repeat (match goal with
          | |- context [bool_decide ?P] => destruct (bool_decide P)
          end; simpl); try done.
  all: by rewrite Z.add_0_r, dict_set_same.
Qed.

Lemma scorable_spec answers cipher :
  scorable answers cipher = true ↔
  has_name cipher = true
  ∧ ∀ item, item ∈ answers → item.2 ≠ "unknown" → has_value cipher item.1 = true.
Proof.
  unfold scorable, answered.
  rewrite andb_true_iff, forallb_forall.
  setoid_rewrite <-list_elem_of_In. setoid_rewrite list_elem_of_filter.
  naive_solver.
Qed.

(** The inner loop adds the record's row score to the entry of its name. *)
Lemma score_cipher_spec answers cipher scores old :
  scorable answers cipher = true →
  dict_get scores (cipher_name cipher) = Some old →
  score_cipher answers scores cipher
  = Ok (dict_set scores (cipher_name cipher) (old + row_score answers cipher)).
Proof.
  rewrite scorable_spec. intros [Hname Hval]. unfold score_cipher.
  revert scores old.
  induction answers as [|item answers IH]; intros scores old Hold; simpl.
  - unfold row_score; simpl. by rewrite Z.add_0_r, dict_set_same.
  - rewrite (score_answer_spec _ _ _ old) by (auto; set_solver). simpl.
    rewrite (IH ltac:(set_solver) _ (old + item_contribution cipher item)).
    + by rewrite dict_set_set, row_score_cons, Z.add_assoc.
    + rewrite dict_get_set. by rewrite decide_True.
Qed.

Lemma init_scores_spec ciphers :
  Forall (λ c, has_name c = true) ciphers →
  init_scores ciphers = Ok (init_from [] (cipher_name <$> ciphers)).
Proof.
  unfold init_scores. generalize (@nil (pyval * Z)) as acc.
  induction ciphers as [|c ciphers IH]; intros acc Hall; simpl; [done|].
  inversion Hall as [|? ? Hc Hrest]; subst.
  destruct (has_name_getitem _ Hc) as (_ & -> & Hhash); simpl.
  rewrite Hhash; simpl. by apply IH.
Qed.

Lemma init_from_keys acc names :
  (init_from acc names).*1
  = acc.*1 ++ filter (λ k, k ∉ acc.*1) (first_occurrences names).
Proof.
  revert acc. induction names as [|x names IH]; intros acc; simpl.
  - by rewrite app_nil_r.
  - rewrite IH, filter_cons. destruct (decide (x ∈ acc.*1)) as [Hin|Hnin].
    + rewrite dict_set_keys_old by done. case_decide; [done|].
      f_equal. rewrite list_filter_filter.
      apply list_filter_iff. set_solver.
    + rewrite dict_set_keys_new by done. rewrite decide_True by done.
      rewrite <-app_assoc. simpl. do 2 f_equal.
      rewrite list_filter_filter. apply list_filter_iff. set_solver.
Qed.

Lemma init_from_get acc names k :
  dict_get (init_from acc names) k
  = if decide (k ∈ names) then Some 0 else dict_get acc k.
Proof.
  revert acc. induction names as [|x names IH]; intros acc; simpl.
  - done.
  - rewrite IH, dict_get_set.
    repeat case_decide; try done; set_solver.
Qed.

Lemma name_score_cons answers c ciphers name :
  name_score answers (c :: ciphers) name
  = (if decide (cipher_name c = name) then row_score answers c else 0)
    + name_score answers ciphers name.
Proof.
  unfold name_score. rewrite filter_cons. case_decide; simpl; done || lia.
Qed.

(** The outer loop: every entry grows by the row scores of the records
    bearing its name; no key is added, removed or moved. *)
Lemma score_loop_spec answers ciphers scores :
  Forall (λ c, scorable answers c = true) ciphers →
  (∀ c, c ∈ ciphers → cipher_name c ∈ scores.*1) →
  ∃ scores', foldM (score_cipher answers) scores ciphers = Ok scores'
    ∧ scores'.*1 = scores.*1
    ∧ ∀ k, dict_get scores' k
           = (λ z, z + name_score answers ciphers k) <$> dict_get scores k.
Proof.
  revert scores. induction ciphers as [|c ciphers IH]; intros scores Hall Hkeys.
  - exists scores. split; [done|]. split; [done|]. intros k.
    unfold name_score; simpl. destruct (dict_get scores k); simpl; [|done].
    by rewrite Z.add_0_r.
  - inversion Hall as [|? ? Hc Hrest]; subst.
    assert (cipher_name c ∈ scores.*1) as Hin by (apply Hkeys; set_solver).
    destruct (proj2 (dict_get_is_Some scores _) Hin) as [old Hold].
    simpl. rewrite (score_cipher_spec _ _ _ old) by done. simpl.
    set (scores1 := dict_set scores (cipher_name c) (old + row_score answers c)).
    assert (scores1.*1 = scores.*1) as Hk1 by by apply dict_set_keys_old.
    destruct (IH scores1 Hrest) as (scores' & Hrun & Hk & Hget).
    { intros c' Hc'. rewrite Hk1. apply Hkeys. set_solver. }
    exists scores'. split; [done|]. split; [congruence|].
    intros k. rewrite Hget. unfold scores1. rewrite dict_get_set.
    rewrite name_score_cons.
    destruct (decide (k = cipher_name c)) as [->|Hne].
    + rewrite Hold, decide_True by done. simpl. f_equal. lia.
    + rewrite decide_False by done.
      destruct (dict_get scores k); simpl; [|done]. f_equal.
Qed.

(** Scoring succeeds on scorable records; the result has one entry per
    name, in order of first occurrence, holding the sum of the row scores
    of the records bearing that name. *)
Lemma score_ciphers_spec ciphers answers :
  Forall (λ c, scorable answers c = true) ciphers →
  ∃ scores, score_ciphers ciphers answers = Ok scores
    ∧ scores.*1 = first_occurrences (cipher_name <$> ciphers)
    ∧ ∀ k, dict_get scores k
           = if decide (k ∈ cipher_name <$> ciphers)
             then Some (name_score answers ciphers k) else None.
Proof.
  intros Hall. unfold score_ciphers.
  rewrite init_scores_spec; simpl.
  2:{ eapply Forall_impl; [done|]. intros c. rewrite scorable_spec. tauto. }
  destruct (score_loop_spec answers ciphers
              (init_from [] (cipher_name <$> ciphers)) Hall)
    as (scores & Hrun & Hk & Hget).
  { intros c Hc. apply dict_get_is_Some. rewrite init_from_get.
    rewrite decide_True; [done|]. by apply list_elem_of_fmap_2. }
  exists scores. split; [done|]. split.
  - rewrite Hk, init_from_keys. simpl.
    rewrite (list_filter_iff _ (λ _, True)) by set_solver.
    induction (first_occurrences _) as [|? ? IHl]; [done|].
    by rewrite filter_cons_True, IHl.
  - intros k. rewrite Hget, init_from_get. by case_decide.
Qed.

Lemma all_scorable_Forall answers ciphers :
  all_scorable answers ciphers = true ↔
  Forall (λ c, scorable answers c = true) ciphers.
Proof.
  unfold all_scorable. rewrite forallb_forall, Forall_forall.
  by setoid_rewrite list_elem_of_In.
Qed.

Lemma foldM_Ok_each {A B} (body : B → A → result B) acc l r :
  foldM body acc l = Ok r →
  ∀ x, x ∈ l → ∃ a a', body a x = Ok a'.
Proof.
  revert acc. induction l as [|y l IH]; intros acc Hrun x Hx; [set_solver|].
  simpl in Hrun. destruct (body acc y) as [acc'|] eqn:Hy; [|done].
  apply elem_of_cons in Hx as [->|Hx]; eauto.
Qed.

(** Scoring completes only on scorable records. *)
Lemma score_ciphers_Ok_scorable ciphers answers scores :
  score_ciphers ciphers answers = Ok scores →
  all_scorable answers ciphers = true.
Proof.
  unfold score_ciphers. intros Hrun.
  destruct (init_scores ciphers) as [init|] eqn:Hinit; [|done]. simpl in Hrun.
  apply all_scorable_Forall, Forall_forall. intros c Hc.
  apply scorable_spec. split.
  - destruct (foldM_Ok_each _ _ _ _ Hinit c Hc) as (a & a' & Hbody).
    unfold getitem, has_name in *.
    destruct (c !! Some "Cipher") as [[]|]; by simpl in *.
  - intros [attribute value] Hitem Hunk; simpl in *.
    destruct (foldM_Ok_each _ _ _ _ Hrun c Hc) as (a & a' & Hbody).
    destruct (foldM_Ok_each _ _ _ _ Hbody _ Hitem) as (b & b' & Hstep).
    simpl in Hstep. rewrite decide_False in Hstep by done.
    unfold getitem, has_value in *.
    destruct (c !! Some attribute) as [[]|]; by simpl in *.
Qed.

Lemma NoDup_first_occurrences l : NoDup (first_occurrences l).
Proof.
  induction l as [|x l IH]; simpl; constructor.
  - rewrite list_elem_of_filter. naive_solver.
  - by apply NoDup_filter.
Qed.

Lemma filter_ne_notin (x : pyval) (l : list pyval) : x ∉ l → filter (λ y, y ≠ x) l = l.
Proof.
  induction l as [|y l IH]; [done|]. intros Hx.
  rewrite filter_cons_True by set_solver. f_equal. apply IH. set_solver.
Qed.

Lemma first_occurrences_NoDup l : NoDup l → first_occurrences l = l.
Proof.
  induction 1 as [|x l Hx Hl IH]; simpl; [done|].
  by rewrite IH, filter_ne_notin.
Qed.

Lemma filter_unique_name ciphers c :
  NoDup (cipher_name <$> ciphers) → c ∈ ciphers →
  filter (λ c', cipher_name c' = cipher_name c) ciphers = [c].
Proof.
  induction ciphers as [|c0 ciphers IH]; [set_solver|].
  rewrite fmap_cons, NoDup_cons. intros [Hc0 Hnd] Hc.
  assert (∀ c', c' ∈ ciphers → cipher_name c' ≠ cipher_name c0) as Hother.
  { intros c' Hc' Heq. apply Hc0. rewrite <-Heq. by apply list_elem_of_fmap_2. }
  apply elem_of_cons in Hc as [->|Hc].
  - rewrite filter_cons_True by done. f_equal.
    clear IH Hc0 Hnd. induction ciphers as [|c1 ciphers IH]; [done|].
    rewrite filter_cons_False by (apply Hother; set_solver).
    apply IH. intros c' Hc'. apply Hother. set_solver.
  - rewrite filter_cons_False; [by apply IH|].
    intros Heq. by apply (Hother c).
Qed.

Lemma name_score_unique answers ciphers c :
  NoDup (cipher_name <$> ciphers) → c ∈ ciphers →
  name_score answers ciphers (cipher_name c) = row_score answers c.
Proof.
  intros Hnd Hc. unfold name_score. rewrite filter_unique_name by done.
  simpl. lia.
Qed.

Lemma contribution_bounds attribute answer cipher_value :
  -2 ≤ contribution attribute answer cipher_value ≤ 3.
Proof. unfold contribution. repeat case_bool_decide; lia. Qed.

Lemma row_score_bounds answers cipher :
  -2 * Z.of_nat (length (answered answers)) ≤ row_score answers cipher
  ≤ 3 * Z.of_nat (length (answered answers)).
Proof.
  unfold row_score. induction (answered answers) as [|item l IH].
  - simpl. lia.
  - rewrite fmap_cons. cbn [Zsum foldr length].
    pose proof (contribution_bounds item.1 item.2 (candidate_value cipher item.1)).
    fold (Zsum ((λ item, contribution item.1 item.2
                           (candidate_value cipher item.1)) <$> l)).
    lia.
Qed.

(** ** Reporter *)

Lemma find_explanation_spec ciphers name :
  Forall (λ c, has_name c = true) ciphers →
  find_explanation ciphers name = Ok (explanation_for ciphers name).
Proof.
  unfold explanation_for.
  induction 1 as [|c ciphers Hc Hall IH]; simpl; [done|].
  destruct (has_name_getitem _ Hc) as (_ & -> & _); simpl.
  rewrite filter_cons. case_decide; [done|]. apply IH.
Qed.

Lemma emit_run e w :
  emit e w = (Ok (), World (files w) (stdin w) (stdout w ++ [e])).
Proof. done. Qed.

Lemma for_each_emit {A} (l : list A) (body : A → Py unit) (f : A → event) w :
  (∀ x w', x ∈ l → body x w' = emit (f x) w') →
  for_each l body w = (Ok (), World (files w) (stdin w) (stdout w ++ (f <$> l))).
Proof.
  revert w. induction l as [|x l IH]; intros w Hbody; simpl.
  - rewrite app_nil_r. by destruct w.
  - unfold mbind, Py_bind. rewrite Hbody by set_solver. rewrite emit_run.
    rewrite IH by (intros; apply Hbody; set_solver). simpl.
    by rewrite <-app_assoc.
Qed.

(** The reporter prints the first two entries of the ranking, in order,
    each with the explanation of the first record bearing its name. *)
Lemma report_spec ciphers ranked w :
  Forall (λ c, has_name c = true) ciphers →
  report ciphers ranked w
  = (Ok (), World (files w) (stdin w)
              (stdout w ++ (recommendation ciphers <$> take 2 ranked))).
Proof.
  intros Hall. unfold report. apply for_each_emit.
  intros entry w' _. unfold mbind, Py_bind, lift.
  by rewrite find_explanation_spec.
Qed.

(** ** Ranker *)

Lemma insert_by_score_Permutation x l : insert_by_score x l ≡ₚ x :: l.
Proof.
  induction l as [|y l IH]; simpl; [done|].
  destruct (x.2 <=? y.2); [done|]. rewrite IH. apply Permutation_swap.
Qed.

Lemma stable_sort_Permutation l : stable_sort l ≡ₚ l.
Proof.
  induction l as [|x l IH]; simpl; [done|].
  by rewrite insert_by_score_Permutation, IH.
Qed.

Lemma insert_by_score_sorted x l :
  StronglySorted score_le l → StronglySorted score_le (insert_by_score x l).
Proof.
  induction l as [|y l IH]; simpl; intros Hl.
  - repeat constructor.
  - apply StronglySorted_cons in Hl as [Hy Hl].
    destruct (x.2 <=? y.2) eqn:Hxy.
    + apply Z.leb_le in Hxy. constructor; [by constructor|].
      constructor; [done|]. eapply Forall_impl; [done|].
      unfold score_le. intros; simpl in *; lia.
    + apply Z.leb_gt in Hxy. constructor; [by apply IH|].
      rewrite insert_by_score_Permutation. constructor; [|done].
      unfold score_le. lia.
Qed.

Lemma stable_sort_sorted l : StronglySorted score_le (stable_sort l).
Proof.
  induction l; simpl; [constructor | by apply insert_by_score_sorted].
Qed.

Lemma StronglySorted_reverse_flip l :
  StronglySorted score_le l → StronglySorted score_ge (reverse l).
Proof.
  induction l as [|x l IH]; [constructor|].
  rewrite reverse_cons, StronglySorted_cons, StronglySorted_app, Forall_forall.
  intros [Hx Hl]. split; [|split; [by apply IH | repeat constructor]].
  intros x1 x2 Hx1 Hx2. apply list_elem_of_singleton in Hx2 as ->.
  rewrite elem_of_reverse in Hx1. by apply (Hx x1).
Qed.

(** Insertion keeps the relative order of the entries of any one score. *)
Lemma insert_by_score_filter (s : Z) x l :
  filter (λ y, y.2 = s) (insert_by_score x l) = filter (λ y, y.2 = s) (x :: l).
Proof.
  induction l as [|y l IH]; simpl; [done|].
  destruct (x.2 <=? y.2) eqn:Hxy; [done|]. apply Z.leb_gt in Hxy.
  rewrite (filter_cons _ y), IH, !filter_cons.
  repeat case_decide; done || lia.
Qed.

Lemma stable_sort_filter (s : Z) l :
  filter (λ y, y.2 = s) (stable_sort l) = filter (λ y, y.2 = s) l.
Proof.
  induction l as [|x l IH]; simpl; [done|].
  by rewrite insert_by_score_filter, !filter_cons, IH.
Qed.

Lemma sorted_reverse_filter (s : Z) items :
  filter (λ y, y.2 = s) (sorted_reverse items) = filter (λ y, y.2 = s) items.
Proof.
  unfold sorted_reverse.
  by rewrite filter_reverse, stable_sort_filter, filter_reverse, reverse_involutive.
Qed.

Lemma sorted_reverse_sorted items : StronglySorted score_ge (sorted_reverse items).
Proof. apply StronglySorted_reverse_flip, stable_sort_sorted. Qed.

Lemma sorted_reverse_Permutation items : sorted_reverse items ≡ₚ items.
Proof.
  unfold sorted_reverse.
  by rewrite reverse_Permutation, stable_sort_Permutation, reverse_Permutation.
Qed.

Lemma filter_sublist_mono {A} (P : A → Prop) `{!∀ x, Decision (P x)} (l1 l2 : list A) :
  l1 `sublist_of` l2 → filter P l1 `sublist_of` filter P l2.
Proof.
  induction 1 as [|x l1 l2 _ IH|x l1 l2 _ IH]; [done| |];
    rewrite ?filter_cons; repeat case_decide;
    auto using sublist_skip, sublist_cons.
Qed.

Lemma singleton_sublist {A} (x : A) (l : list A) : x ∈ l → [x] `sublist_of` l.
Proof.
  induction 1; [apply sublist_skip, sublist_nil_l | by apply sublist_cons].
Qed.

Lemma dict_get_elem_of (d : scores_t) k v : dict_get d k = Some v → (k, v) ∈ d.
Proof.
  induction d as [|[k0 v0] d IH]; simpl; [done|].
  case_decide; [intros [= ->]; subst; set_solver | set_solver].
Qed.

(** Two keys in dictionary order give two entries in dictionary order. *)
Lemma dict_entries_sublist (d : scores_t) a b sa sb :
  NoDup d.*1 → [a; b] `sublist_of` d.*1 →
  dict_get d a = Some sa → dict_get d b = Some sb →
  [(a, sa); (b, sb)] `sublist_of` d.
Proof.
  induction d as [|[k v] d IH]; simpl.
  { intros _ Hsub. by apply sublist_nil_r in Hsub. }
  rewrite NoDup_cons. intros [Hk Hnd] Hsub Ha Hb.
  apply sublist_cons_r in Hsub as [Hsub|(l' & [= -> <-] & Hsub)].
  - assert (a ∈ d.*1 ∧ b ∈ d.*1) as [Hain Hbin].
    { split; eapply elem_of_sublist; eauto; set_solver. }
    rewrite decide_False in Ha by (intros ->; done).
    rewrite decide_False in Hb by (intros ->; done).
    apply sublist_cons. by apply IH.
  - assert (b ∈ d.*1) as Hbin by (eapply elem_of_sublist; eauto; set_solver).
    rewrite decide_True in Ha by done. injection Ha as ->.
    rewrite decide_False in Hb by (intros ->; done).
    apply sublist_skip, singleton_sublist. by apply dict_get_elem_of.
Qed.

(** Two entries of equal score leave the ranking in the order in which
    they entered it. *)
Lemma sorted_reverse_stable items a b :
  a.2 = b.2 → [a; b] `sublist_of` items → [a; b] `sublist_of` sorted_reverse items.
Proof.
  intros Heq Hsub.
  apply (filter_sublist_mono (λ y, y.2 = a.2)) in Hsub.
  rewrite !filter_cons_True, filter_nil in Hsub by done.
  rewrite <-sorted_reverse_filter in Hsub.
  etrans; [done|]. apply sublist_filter.
Qed.

(** ** Dataset loader *)

Lemma dict_zip_lookup_None (d : row) fieldnames fields col :
  foldl (λ d kv, <[Some kv.1 := VStr kv.2]> d) d (zip fieldnames fields) !! Some col = None
  ↔ d !! Some col = None ∧ col ∉ take (length fields) fieldnames.
Proof.
  revert d fields. induction fieldnames as [|f fieldnames IH]; intros d fields.
  - simpl. rewrite take_nil. set_solver.
  - destruct fields as [|x fields]; simpl; [set_solver|].
    rewrite IH, lookup_insert_None, not_elem_of_cons. naive_solver.
Qed.

Lemma restval_lookup_None (d : row) keys col :
  foldl (λ d key, <[Some key := VNone]> d) d keys !! Some col = None
  ↔ d !! Some col = None ∧ col ∉ keys.
Proof.
  revert d. induction keys as [|k keys IH]; intros d; simpl; [set_solver|].
  rewrite IH, lookup_insert_None, not_elem_of_cons. naive_solver.
Qed.

(** Every record of the reader has every column of the header, whatever
    the number of fields on its line. *)
Lemma dict_row_lookup_None fieldnames fields col :
  dict_row fieldnames fields !! Some col = None ↔ col ∉ fieldnames.
Proof.
  unfold dict_row, dict_zip.
  destruct (length fieldnames <? length fields)%nat eqn:Hlong.
  { apply Nat.ltb_lt in Hlong. rewrite lookup_insert_ne by done.
    rewrite dict_zip_lookup_None, take_ge by lia.
    rewrite lookup_empty. tauto. }
  destruct (length fields <? length fieldnames)%nat eqn:Hshort.
  - rewrite restval_lookup_None, dict_zip_lookup_None, lookup_empty.
    rewrite <-(take_drop (length fields) fieldnames) at 3.
    rewrite not_elem_of_app. tauto.
  - apply Nat.ltb_ge in Hlong, Hshort.
    rewrite dict_zip_lookup_None, take_ge by lia.
    rewrite lookup_empty. tauto.
Qed.

Lemma validate_columns_run cols first rest w :
  for_each cols (λ col,
    first' ← first_row (first :: rest);
    if decide (first' !! Some col = None)
    then raise (ValueError ("Missing required column: " +:+ col))
    else mret ()) w
  = match head (filter (λ col, first !! Some col = None) cols) with
    | Some col => (Raise (ValueError ("Missing required column: " +:+ col)), w)
    | None => (Ok (), w)
    end.
Proof.
  induction cols as [|col cols IH]; simpl; [done|].
  rewrite filter_cons. unfold mbind, Py_bind at 1. simpl.
  unfold mbind, Py_bind at 1. simpl.
  unfold mret, Py_ret at 1. case_decide; simpl; [done|]. apply IH.
Qed.

Lemma load_table_run file_path w :
  load_table file_path w
  = (Ok (load_outcome (files w file_path)).1,
     write w (load_outcome (files w file_path)).2).
Proof.
  unfold load_table, try_except, load_outcome, write.
  unfold mbind, Py_bind at 1.
  destruct (files w file_path) as [lines|e]; [|done].
  destruct (DictReader lines) as [|first rest]; [done|].
  unfold mbind, Py_bind at 1. rewrite validate_columns_run.
  fold (missing_column first).
  destruct (missing_column first);
    unfold Py_bind, print, emit, mret, Py_ret, first_row; simpl; [done|].
  by rewrite <-app_assoc.
Qed.

Lemma DictReader_first fieldnames data first rest :
  DictReader (fieldnames :: data) = first :: rest →
  ∃ fields, first = dict_row fieldnames fields.
Proof.
  simpl. destruct (filter _ data) as [|fields l]; [done|].
  intros [= <- _]. by exists fields.
Qed.

Lemma missing_column_Some first col :
  col ∈ required_columns → first !! Some col = None →
  is_Some (missing_column first).
Proof.
  intros Hcol Hnone. unfold missing_column.
  destruct (filter _ required_columns) as [|c l] eqn:Hf; [|by eexists].
  exfalso. eapply (filter_nil_not_elem_of _ _ col); eauto.
Qed.

Lemma missing_column_None first :
  (∀ col, col ∈ required_columns → first !! Some col ≠ None) →
  missing_column first = None.
Proof.
  intros Hall. unfold missing_column.
  destruct (filter _ required_columns) as [|c l] eqn:Hf; [done|].
  assert (c ∈ filter (λ col, first !! Some col = None) required_columns) as Hc
    by (rewrite Hf; set_solver).
  apply list_elem_of_filter in Hc as [Hnone Hc]. by destruct (Hall c).
Qed.

(** C5 (amended): [load_table] never raises; it returns either all the
    records parsed from the file or the empty list.  It returns the empty
    list when the file cannot be opened or read, when the file has no data
    row, and when a required column is missing from the header.  When the
    header has every required column it returns all the parsed records,
    a line with fewer fields than the header included (its missing values
    are [None]). *)
Theorem load_table_total (file_path : string) (w : world) :
  ∃ ciphers out,
    load_table file_path w = (Ok ciphers, write w out)
    ∧ (ciphers = [] ∨ ∃ lines, files w file_path = Ok lines ∧ ciphers = DictReader lines)
    ∧ (∀ e, files w file_path = Raise e → ciphers = [])
    ∧ (∀ lines, files w file_path = Ok lines → DictReader lines = [] → ciphers = [])
    ∧ (∀ fieldnames data col,
         files w file_path = Ok (fieldnames :: data) →
         col ∈ required_columns → col ∉ fieldnames → ciphers = [])
    ∧ (∀ fieldnames data,
         files w file_path = Ok (fieldnames :: data) →
         (∀ col, col ∈ required_columns → col ∈ fieldnames) →
         ciphers = DictReader (fieldnames :: data)).
Proof.
  eexists _, _. split; [apply load_table_run|].
  unfold load_outcome.
  destruct (files w file_path) as [lines|e] eqn:Hread; simpl.
  2:{ repeat split; try done; auto. }
  destruct (DictReader lines) as [|first rest] eqn:Hparsed; simpl.
  { split; [auto|]. do 3 (split; [done|]).
    intros fieldnames data [= ->] _. by rewrite <-Hparsed. }
  destruct (missing_column first) as [col|] eqn:Hmiss; simpl.
  - split; [auto|]. do 3 (split; [done|]).
    intros fieldnames data [= ->] Hall. exfalso.
    destruct (DictReader_first _ _ _ _ Hparsed) as [fields ->].
    rewrite missing_column_None in Hmiss; [done|].
    intros c Hc. rewrite dict_row_lookup_None. auto.
  - split; [right; eauto|]. split; [done|]. split; [|split].
    + intros lines' [= <-] Hempty. congruence.
    + intros fieldnames data col [= ->] Hcol Hnot. exfalso.
      destruct (DictReader_first _ _ _ _ Hparsed) as [fields ->].
      destruct (missing_column_Some (dict_row fieldnames fields) col) as [? ?];
        [done| by apply dict_row_lookup_None | congruence].
    + intros fieldnames data [= ->] _. done.
Qed.

Lemma load_table_total_witness :
  ∃ ciphers out,
    load_table table_path short_row_world = (Ok ciphers, write short_row_world out)
    ∧ ciphers = DictReader [required_columns; ["AES"]].
Proof.
  destruct (load_table_total table_path short_row_world)
    as (ciphers & out & Hrun & _ & _ & _ & _ & Hall).
  exists ciphers, out. split; [exact Hrun|].
  apply (Hall required_columns [["AES"]]); [reflexivity|]. intros col Hcol. exact Hcol.
Defined.

(** C5 as stated fails: a data line that gives no value for a required
    column does not make the loader return the empty list. *)
Lemma load_table_short_row_counterexample :
  ¬ (∀ w file_path fieldnames data fields col,
       files w file_path = Ok (fieldnames :: data) →
       fields ∈ data → col ∈ required_columns →
       (¬ ∃ s, dict_row fieldnames fields !! Some col = Some (VStr s)) →
       (load_table file_path w).1 = Ok []).
Proof.
  intros Hclaim.
  assert ((load_table table_path short_row_world).1
          = Ok [dict_row required_columns ["AES"]]) as Hrun
    by (vm_compute; reflexivity).
  rewrite (Hclaim short_row_world table_path required_columns [["AES"]]
             ["AES"] "Speed") in Hrun.
  - discriminate Hrun.
  - reflexivity.
  - apply list_elem_of_singleton. reflexivity.
  - unfold required_columns. set_solver.
  - intros [s Hs]. vm_compute in Hs. discriminate Hs.
Qed.

(** ** Entry point *)

Lemma main_halts_on_empty w w' :
  load_table table_path w = (Ok [], w') →
  main w = (Ok (), write w' [Print "Unable to load or validate the CSV file. Exiting."]).
Proof.
  intros Hload. unfold main, mbind, Py_bind. by rewrite Hload.
Qed.

(** The answer map collected by [main] has the five attributes of the
    questions, in order. *)
Lemma collect_answers_keys w user_answers w' :
  collect_answers questions [] w = (Ok user_answers, w') →
  user_answers.*1 = questions.*2.
Proof.
  unfold questions. simpl. unfold mbind, Py_bind.
  repeat (match goal with
          | |- context [ask_question ?q ?o ?w] =>
              destruct (ask_question q o w) as [[?|?] ?]; [|done]
          end; simpl).
  unfold mret, Py_ret. intros [= <- _]. reflexivity.
Qed.

(** C6: when the header of the input file lacks the column ["Cipher"], the
    loader returns the empty list; and whenever the loader returns the
    empty list, [main] prints one message and returns: it reads nothing
    from standard input, asks no question and prints no ranking. *)
Theorem missing_cipher_column_halts (w : world) (fieldnames : list string)
    (data : list (list string)) :
  files w table_path = Ok (fieldnames :: data) →
  "Cipher" ∉ fieldnames →
  (∃ e, load_table table_path w = (Ok [], write w [PrintLoadError e])
        ∧ main w = (Ok (), write w [PrintLoadError e;
                      Print "Unable to load or validate the CSV file. Exiting."]))
  ∧ (∀ w0 w1, load_table table_path w0 = (Ok [], w1) →
       main w0 = (Ok (), write w1
                    [Print "Unable to load or validate the CSV file. Exiting."])).
Proof.
  intros Hread Hnot. split; [|apply main_halts_on_empty].
  assert (∃ e, load_outcome (files w table_path) = ([], [PrintLoadError e]))
    as [e He].
  { unfold load_outcome. rewrite Hread.
    destruct (DictReader (fieldnames :: data)) as [|first rest] eqn:Hparsed;
      [by eexists|].
    destruct (DictReader_first _ _ _ _ Hparsed) as [fields ->].
    destruct (missing_column_Some (dict_row fieldnames fields) "Cipher")
      as [col ->]; [set_solver | by apply dict_row_lookup_None | by eexists]. }
  exists e. pose proof (load_table_run table_path w) as Hload.
  rewrite He in Hload. simpl in Hload. split; [done|].
  rewrite (main_halts_on_empty _ _ Hload). unfold write; simpl.
  by rewrite <-app_assoc.
Qed.

Lemma missing_cipher_column_halts_witness :
  ∃ e, load_table table_path no_cipher_world
       = (Ok [], write no_cipher_world [PrintLoadError e])
     ∧ main no_cipher_world
       = (Ok (), write no_cipher_world [PrintLoadError e;
                   Print "Unable to load or validate the CSV file. Exiting."]).
Proof.
  eapply (missing_cipher_column_halts no_cipher_world).
  - reflexivity.
  - apply (bool_decide_unpack _). vm_compute. exact I.
Defined.

(** ** The claims about scoring and ranking *)

Lemma elem_of_first_occurrences (x : pyval) (l : list pyval) :
  x ∈ first_occurrences l ↔ x ∈ l.
Proof.
  induction l as [|y l IH]; simpl; [done|].
  rewrite !elem_of_cons, list_elem_of_filter, IH.
  destruct (decide (x = y)); naive_solver.
Qed.

Lemma explanation_for_first before cipher after :
  (∀ c, c ∈ before → cipher_name c ≠ cipher_name cipher) →
  explanation_for (before ++ cipher :: after) (cipher_name cipher)
  = default no_explanation (cipher !! Some "Explanation").
Proof.
  intros Hbefore. unfold explanation_for.
  rewrite filter_app, filter_cons_True by done.
  replace (filter _ before) with (@nil row); [done|].
  induction before as [|c before IH]; [done|].
  rewrite filter_cons_False by (apply Hbefore; set_solver).
  apply IH. intros c' Hc'. apply Hbefore. set_solver.
Qed.

Lemma dict_set_Forall_snd (P : Z → Prop) (d : scores_t) k v :
  Forall (λ entry, P entry.2) d → P v → Forall (λ entry, P entry.2) (dict_set d k v).
Proof.
  induction 1 as [|[k0 v0] d H0 Hd IH]; intros Hv; simpl.
  - by repeat constructor.
  - case_decide; constructor; auto.
Qed.

Lemma init_from_zero acc names :
  Forall (λ entry, entry.2 = 0) acc →
  Forall (λ entry, entry.2 = 0) (init_from acc names).
Proof.
  revert acc. induction names as [|x names IH]; intros acc Hacc; simpl; [done|].
  apply IH. by apply (dict_set_Forall_snd (λ z, z = 0)).
Qed.

Lemma scorable_has_name answers ciphers :
  all_scorable answers ciphers = true →
  Forall (λ c, has_name c = true) ciphers.
Proof.
  rewrite all_scorable_Forall. intros HF.
  eapply Forall_impl; [exact HF|].
  intros c. rewrite scorable_spec. tauto.
Qed.

(** C1: scoring succeeds on scorable records.  For every record and every
    item of the answer map, the loop body adds to the entry of the
    record's name exactly the contribution of the one rule that applies
    (+3 exact match, else +1 weak match, else -2 opposite match, else 0),
    and nothing when the answer is ["unknown"].  The final score of a name
    is the sum of these contributions over the answered attributes of the
    records bearing it, hence of the record itself when it is the only
    one of that name. *)
Theorem score_ciphers_rules (ciphers : list row) (answers : list (string * string)) :
  all_scorable answers ciphers = true →
  ∃ scores, score_ciphers ciphers answers = Ok scores
    ∧ (∀ cipher acc old item,
         cipher ∈ ciphers → item ∈ answers →
         dict_get acc (cipher_name cipher) = Some old →
         score_answer cipher acc item
         = Ok (dict_set acc (cipher_name cipher)
                 (old + if decide (item.2 = "unknown") then 0
                        else contribution item.1 item.2
                               (candidate_value cipher item.1))))
    ∧ (∀ cipher, cipher ∈ ciphers →
         dict_get scores (cipher_name cipher)
         = Some (name_score answers ciphers (cipher_name cipher)))
    ∧ (∀ cipher, cipher ∈ ciphers →
         filter (λ c, cipher_name c = cipher_name cipher) ciphers = [cipher] →
         dict_get scores (cipher_name cipher) = Some (row_score answers cipher)).
Proof.
  intros Hall. pose proof (proj1 (all_scorable_Forall _ _) Hall) as HF.
  destruct (score_ciphers_spec ciphers answers HF) as (scores & Hrun & _ & Hget).
  assert (∀ cipher, cipher ∈ ciphers →
            dict_get scores (cipher_name cipher)
            = Some (name_score answers ciphers (cipher_name cipher))) as Hname.
  { intros cipher Hc. rewrite Hget, decide_True; [done|].
    by apply list_elem_of_fmap_2. }
  exists scores. split; [done|]. split; [|split; [done|]].
  - intros cipher acc old item Hc Hitem Hold.
    rewrite Forall_forall in HF. apply HF, scorable_spec in Hc as [Hn Hv].
    rewrite (score_answer_spec _ _ _ old); auto.
  - intros cipher Hc Honly. rewrite Hname by done.
    unfold name_score. rewrite Honly. simpl. by rewrite Z.add_0_r.
Qed.

Lemma score_ciphers_rules_witness :
  all_scorable sample_answers sample_ciphers = true
  ∧ ∃ scores, score_ciphers sample_ciphers sample_answers = Ok scores
      ∧ ∀ cipher, cipher ∈ sample_ciphers →
          dict_get scores (cipher_name cipher)
          = Some (name_score sample_answers sample_ciphers (cipher_name cipher)).
Proof.
  split; [vm_compute; reflexivity|].
  destruct (score_ciphers_rules sample_ciphers sample_answers)
    as (scores & Hrun & _ & Hname & _); [vm_compute; reflexivity|].
  exists scores. split; [exact Hrun | exact Hname].
Defined.

(** C8: when scoring completes, the score map was first given an entry 0
    for the name of every record, the scoring loop ran on that map without
    adding, removing or moving a key, and so every record of the dataset
    has an integer score in the result. *)
Theorem scores_cover_dataset (ciphers : list row) (answers : list (string * string))
    (scores : scores_t) :
  score_ciphers ciphers answers = Ok scores →
  (∃ init, init_scores ciphers = Ok init
     ∧ Forall (λ entry, entry.2 = 0) init
     ∧ (∀ cipher, cipher ∈ ciphers → cipher_name cipher ∈ init.*1)
     ∧ foldM (score_cipher answers) init ciphers = Ok scores
     ∧ scores.*1 = init.*1)
  ∧ (∀ cipher, cipher ∈ ciphers →
       ∃ name z, cipher !! Some "Cipher" = Some name
                 ∧ dict_get scores name = Some z).
Proof.
  intros Hrun. pose proof (score_ciphers_Ok_scorable _ _ _ Hrun) as Hall.
  pose proof (proj1 (all_scorable_Forall _ _) Hall) as HF.
  pose proof (scorable_has_name _ _ Hall) as Hnames.
  assert (∀ cipher, cipher ∈ ciphers →
            cipher_name cipher ∈ (init_from [] (cipher_name <$> ciphers)).*1) as Hin.
  { intros c Hc. apply dict_get_is_Some. rewrite init_from_get.
    rewrite decide_True; [done|]. by apply list_elem_of_fmap_2. }
  unfold score_ciphers in Hrun.
  rewrite (init_scores_spec _ Hnames) in Hrun. simpl in Hrun.
  destruct (score_loop_spec answers ciphers _ HF Hin) as (scores' & Hrun' & Hk & Hget).
  assert (scores' = scores) as -> by congruence.
  split.
  - eexists. split; [by apply init_scores_spec|].
    split; [by apply init_from_zero|]. by repeat split.
  - intros c Hc. rewrite Forall_forall in Hnames.
    destruct (has_name_getitem c (Hnames c Hc)) as (Hlook & _ & _).
    assert (is_Some (dict_get scores (cipher_name c))) as [z Hz].
    { apply dict_get_is_Some. rewrite Hk. by apply Hin. }
    eauto.
Qed.

Lemma scores_cover_dataset_witness :
  score_ciphers sample_ciphers sample_answers
    = Ok [(VStr "AES", 3); (VStr "Blowfish", 0)]
  ∧ ∀ cipher, cipher ∈ sample_ciphers →
      ∃ name z, cipher !! Some "Cipher" = Some name
                ∧ dict_get [(VStr "AES", 3); (VStr "Blowfish", 0)] name = Some z.
Proof.
  split; [vm_compute; reflexivity|].
  apply (scores_cover_dataset sample_ciphers sample_answers).
  vm_compute. reflexivity.
Defined.

(** C9: the score map has a single entry per name; its value is the sum
    of the row scores of all the records bearing the name; and the
    explanation printed for a name is that of the first record bearing
    it. *)
Theorem duplicate_names_merged (ciphers : list row) (answers : list (string * string)) :
  all_scorable answers ciphers = true →
  ∃ scores, score_ciphers ciphers answers = Ok scores
    ∧ NoDup scores.*1
    ∧ (∀ name, name ∈ scores.*1 ↔ ∃ cipher, cipher ∈ ciphers ∧ cipher_name cipher = name)
    ∧ (∀ cipher, cipher ∈ ciphers →
         dict_get scores (cipher_name cipher)
         = Some (Zsum (row_score answers
                         <$> filter (λ c, cipher_name c = cipher_name cipher) ciphers)))
    ∧ (∀ before cipher after,
         ciphers = before ++ cipher :: after →
         (∀ c, c ∈ before → cipher_name c ≠ cipher_name cipher) →
         find_explanation ciphers (cipher_name cipher)
         = Ok (default no_explanation (cipher !! Some "Explanation")))
    ∧ (∀ ranked w,
         report ciphers ranked w
         = (Ok (), write w ((λ entry, PrintRecommendation entry.1 entry.2
                                        (explanation_for ciphers entry.1))
                              <$> take 2 ranked))).
Proof.
  intros Hall. pose proof (proj1 (all_scorable_Forall _ _) Hall) as HF.
  pose proof (scorable_has_name _ _ Hall) as Hnames.
  destruct (score_ciphers_spec ciphers answers HF) as (scores & Hrun & Hkeys & Hget).
  exists scores. split; [done|]. split; [|split; [|split; [|split]]].
  - rewrite Hkeys. apply NoDup_first_occurrences.
  - intros name. rewrite Hkeys, elem_of_first_occurrences, list_elem_of_fmap.
    naive_solver.
  - intros cipher Hc. rewrite Hget, decide_True; [done|].
    by apply list_elem_of_fmap_2.
  - intros before cipher after -> Hbefore.
    rewrite find_explanation_spec by done. f_equal.
    by apply explanation_for_first.
  - intros ranked w. by apply report_spec.
Qed.

Lemma duplicate_names_merged_witness :
  all_scorable sample_answers duplicate_ciphers = true
  ∧ ∃ scores, score_ciphers duplicate_ciphers sample_answers = Ok scores
      ∧ NoDup scores.*1.
Proof.
  split; [vm_compute; reflexivity|].
  destruct (duplicate_names_merged duplicate_ciphers sample_answers)
    as (scores & Hrun & Hnodup & _); [vm_compute; reflexivity|].
  exists scores. split; [exact Hrun | exact Hnodup].
Defined.

(** C10: on a dataset of distinct names, with [k] answers other than
    ["unknown"], every final score lies between [-2 * k] and [3 * k]; with
    an answer map of five items, such as the one [main] collects from its
    five questions, it lies between -10 and 15; and when every answer is
    ["unknown"] it is 0. *)
Theorem score_bounds (ciphers : list row) (answers : list (string * string))
    (scores : scores_t) (name : pyval) (s : Z) :
  NoDup (cipher_name <$> ciphers) →
  score_ciphers ciphers answers = Ok scores →
  dict_get scores name = Some s →
  -2 * Z.of_nat (length (answered answers)) ≤ s ≤ 3 * Z.of_nat (length (answered answers))
  ∧ (length answers = 5%nat → -10 ≤ s ≤ 15)
  ∧ (answered answers = [] → s = 0)
  ∧ (∀ w user_answers w',
       collect_answers questions [] w = (Ok user_answers, w') →
       length user_answers = 5%nat).
Proof.
  intros Hnd Hrun Hs.
  pose proof (score_ciphers_Ok_scorable _ _ _ Hrun) as Hall.
  apply all_scorable_Forall in Hall.
  destruct (score_ciphers_spec ciphers answers Hall) as (scores' & Hrun' & _ & Hget).
  assert (scores' = scores) as -> by congruence.
  rewrite Hget in Hs. case_decide as Hin; [|done].
  apply list_elem_of_fmap in Hin as (c & -> & Hc).
  rewrite name_score_unique in Hs by done. injection Hs as <-.
  pose proof (row_score_bounds answers c) as Hb.
  pose proof (length_filter (λ item : string * string, item.2 ≠ "unknown") answers) as Hlen.
  fold (answered answers) in Hlen.
  split; [done|]. split; [|split].
  - intros H5. lia.
  - intros Hnone. rewrite Hnone in Hb. simpl in Hb. lia.
  - intros w user_answers w' Hcollect.
    apply collect_answers_keys in Hcollect.
    by rewrite <-(length_fmap fst), Hcollect.
Qed.

Lemma score_bounds_witness :
  -2 * Z.of_nat (length (answered sample_answers)) ≤ 3
  ≤ 3 * Z.of_nat (length (answered sample_answers)).
Proof.
  apply (score_bounds sample_ciphers sample_answers
           [(VStr "AES", 3); (VStr "Blowfish", 0)] (VStr "AES") 3).
  - apply (bool_decide_unpack _). vm_compute. exact I.
  - vm_compute. reflexivity.
  - reflexivity.
Defined.

(** C4: the ranking is the score map sorted by descending score; the keys
    of the score map are the names in order of first occurrence in the
    dataset (the dataset order itself when no name is repeated), and of
    two names with the same score the one occurring first
    in the dataset comes first in the ranking; the reporter prints the
    first two entries of the ranking and nothing else.  For the scores
    A:5, B:5, C:3 the two entries printed are A then B. *)
Theorem ranking_stable_descending (ciphers : list row)
    (answers : list (string * string)) (scores : scores_t) :
  score_ciphers ciphers answers = Ok scores →
  StronglySorted score_ge (sorted_reverse scores)
  ∧ sorted_reverse scores ≡ₚ scores
  ∧ scores.*1 = first_occurrences (cipher_name <$> ciphers)
  ∧ (NoDup (cipher_name <$> ciphers) → scores.*1 = cipher_name <$> ciphers)
  ∧ (∀ a b s,
       [a; b] `sublist_of` first_occurrences (cipher_name <$> ciphers) →
       dict_get scores a = Some s → dict_get scores b = Some s →
       [(a, s); (b, s)] `sublist_of` sorted_reverse scores)
  ∧ (∀ w, report ciphers (sorted_reverse scores) w
          = (Ok (), write w (recommendation ciphers
                               <$> take 2 (sorted_reverse scores))))
  ∧ (∀ A B C : pyval,
       take 2 (sorted_reverse [(A, 5); (B, 5); (C, 3)]) = [(A, 5); (B, 5)]).
Proof.
  intros Hrun. pose proof (score_ciphers_Ok_scorable _ _ _ Hrun) as Hall.
  pose proof (proj1 (all_scorable_Forall _ _) Hall) as HF.
  destruct (score_ciphers_spec ciphers answers HF) as (scores' & Hrun' & Hkeys & _).
  assert (scores' = scores) as -> by congruence.
  split; [apply sorted_reverse_sorted|].
  split; [apply sorted_reverse_Permutation|].
  split; [done|].
  split; [intros Hnd; by rewrite Hkeys, first_occurrences_NoDup|].
  split.
  { intros a b s Hsub Ha Hb. apply sorted_reverse_stable; [done|].
    apply dict_entries_sublist; try done; rewrite Hkeys; [|done].
    apply NoDup_first_occurrences. }
  split; [|done].
  intros w. apply report_spec. by eapply scorable_has_name.
Qed.

Lemma ranking_stable_descending_witness :
  score_ciphers tie_ciphers tie_answers
    = Ok [(VStr "A", 5); (VStr "B", 5); (VStr "C", 3)]
  ∧ ∀ w, report tie_ciphers
           (sorted_reverse [(VStr "A", 5); (VStr "B", 5); (VStr "C", 3)]) w
         = (Ok (), write w (recommendation tie_ciphers
                              <$> [(VStr "A", 5); (VStr "B", 5)])).
Proof.
  split; [vm_compute; reflexivity|].
  apply (ranking_stable_descending tie_ciphers tie_answers).
  vm_compute. reflexivity.
Defined.

(** C7: on the two-record dataset (AES, Blowfish), with the answer "High"
    for Security Level and "unknown" for the other attributes, AES scores
    3 and Blowfish 0; the whole session, from the answers typed at the
    console, ends by printing AES with score 3 and then Blowfish with
    score 0. *)
Theorem end_to_end_scenario :
  score_ciphers sample_ciphers sample_answers
    = Ok [(VStr "AES", 3); (VStr "Blowfish", 0)]
  ∧ (main sample_world).1 = Ok ()
  ∧ stdin (main sample_world).2 = []
  ∧ stdout (main sample_world).2
    = [ Print "CSV structure validated successfully.";
        PrintSampleRow
          (dict_row required_columns ["AES"; "medium"; "high"; "low"; "yes"; "high"]);
        Print "Welcome to the Block Cipher Decision Tree!";
        Print "Answer the following questions to find the best cipher for your needs.";
        Print "Is high security a priority? (yes/no/I don't know)";
        Prompt "> ";
        Print "Is speed critical for your use case? (yes/no/I don't know)";
        Prompt "> ";
        Print "Do you need low memory consumption? (yes/no/I don't know)";
        Prompt "> ";
        Print "Does your system support hardware acceleration? (yes/no/I don't know)";
        Prompt "> ";
        Print "Is low energy consumption required? (yes/no/I don't know)";
        Prompt "> ";
        Print (nl +:+ "Collected User Answers:");
        PrintAnswers sample_answers;
        Print (nl +:+ "Recommended Ciphers (Top 2):");
        PrintRecommendation (VStr "AES") 3 no_explanation;
        PrintRecommendation (VStr "Blowfish") 0 no_explanation ].
Proof. repeat split; vm_compute; reflexivity. Qed.


(** * Further properties of the program *)

(** ** Interactive prompter *)

Lemma ask_loop_step question options line inp out :
  ask_loop question options (line :: inp) out
  = if valid_line options line
    then (Ok (PyStr.lower (PyStr.strip line)), inp, out ++ ask_events question options)
    else ask_loop question options inp
           (out ++ ask_events question options
                ++ [Print "Invalid input. Please try again."]).
Proof.
  unfold valid_line, accepted. cbn [ask_loop]. rewrite <-app_assoc.
  destruct (truthy options); simpl; by case_bool_decide.
Qed.

Lemma ask_loop_accepts question options rejected line rest out :
  forallb (λ l, negb (valid_line options l)) rejected = true →
  valid_line options line = true →
  ask_loop question options (rejected ++ line :: rest) out
  = (Ok (PyStr.lower (PyStr.strip line)), rest,
     out ++ retry_events question options rejected ++ ask_events question options).
Proof.
  revert out. induction rejected as [|l rejected IH]; intros out Hrej Hvalid.
  - cbn [app]. by rewrite ask_loop_step, Hvalid.
  - simpl in Hrej. apply andb_true_iff in Hrej as [Hl Hrej].
    apply negb_true_iff in Hl.
    rewrite <-app_comm_cons, ask_loop_step, Hl, IH by done.
    unfold retry_events. simpl. by rewrite <-!app_assoc.
Qed.

Lemma ask_loop_exhausted question options inp out :
  forallb (λ l, negb (valid_line options l)) inp = true →
  ask_loop question options inp out
  = (Raise EOFError, [],
     out ++ retry_events question options inp ++ ask_events question options).
Proof.
  revert out. induction inp as [|l inp IH]; intros out Hrej.
  - done.
  - simpl in Hrej. apply andb_true_iff in Hrej as [Hl Hrej].
    apply negb_true_iff in Hl. rewrite ask_loop_step, Hl, IH by done.
    unfold retry_events. simpl. by rewrite <-!app_assoc.
Qed.

Lemma ask_question_first_valid_run question options w rejected line rest :
  stdin w = rejected ++ line :: rest →
  forallb (λ l, negb (valid_line options l)) rejected = true →
  valid_line options line = true →
  ask_question question options w
  = (Ok (PyStr.lower (PyStr.strip line)),
     World (files w) rest
       (stdout w ++ retry_events question options rejected
                 ++ ask_events question options)).
Proof.
  intros Hinp Hrej Hvalid. unfold ask_question.
  by rewrite Hinp, ask_loop_accepts.
Qed.

(** Every input splits at its first valid line, if it has one. *)
Lemma first_valid_split options (inp : list string) :
  (∃ rejected line rest,
     inp = rejected ++ line :: rest
     ∧ forallb (λ l, negb (valid_line options l)) rejected = true
     ∧ valid_line options line = true)
  ∨ forallb (λ l, negb (valid_line options l)) inp = true.
Proof.
  induction inp as [|l inp IH]; [by right|].
  destruct (valid_line options l) eqn:Hl.
  - left. by exists [], l, inp.
  - destruct IH as [(rejected & line & rest & -> & Hrej & Hvalid)|Hall].
    + left. exists (l :: rejected), line, rest. simpl. by rewrite Hl.
    + right. simpl. by rewrite Hl.
Qed.

(** X1: a response returned by [ask_question] is always one of the
    accepted ones: "yes", "no" or "i don't know" when no option list (or
    an empty one) is given, a lower-cased option otherwise. *)
Theorem ask_question_returns_accepted (question : string)
    (options : option (list string)) (w w' : world) (response : string) :
  ask_question question options w = (Ok response, w') →
  response ∈ accepted options
  ∧ (truthy options = false → response ∈ ["yes"; "no"; "i don't know"]).
Proof.
  unfold ask_question. intros Hrun.
  assert (response ∈ accepted options) as Hin.
  { destruct (first_valid_split options (stdin w))
      as [(rejected & line & rest & Hinp & Hrej & Hvalid)|Hall].
    - rewrite Hinp, ask_loop_accepts in Hrun by done.
      injection Hrun as <- _. by apply bool_decide_eq_true in Hvalid.
    - by rewrite ask_loop_exhausted in Hrun. }
  split; [done|]. intros Hno. unfold accepted in Hin. by rewrite Hno in Hin.
Qed.

Lemma ask_question_returns_accepted_witness :
  "yes" ∈ accepted None.
Proof.
  refine (proj1 (ask_question_returns_accepted
                   "Is speed critical for your use case?" None
                   (World (λ p, Raise (OSError p)) ["maybe"; " YES "; "no"] [])
                   (World (λ p, Raise (OSError p)) ["no"]
                      (retry_events "Is speed critical for your use case?" None ["maybe"]
                       ++ ask_events "Is speed critical for your use case?" None))
                   "yes" _)).
  vm_compute. reflexivity.
Defined.

(** X2: [ask_question] rejects every line whose stripped, lower-cased form
    is not accepted, printing the question, the prompt and the error
    message for each, and returns the stripped, lower-cased form of the
    first valid line; the lines after it stay on standard input. *)
Theorem ask_question_first_valid (question : string) (options : option (list string))
    (w : world) (rejected : list string) (line : string) (rest : list string) :
  stdin w = rejected ++ line :: rest →
  forallb (λ l, negb (valid_line options l)) rejected = true →
  valid_line options line = true →
  ask_question question options w
  = (Ok (PyStr.lower (PyStr.strip line)),
     World (files w) rest
       (stdout w ++ retry_events question options rejected
                 ++ ask_events question options)).
Proof.
  intros Hinp Hrej Hvalid. unfold ask_question.
  by rewrite Hinp, ask_loop_accepts.
Qed.

Lemma ask_question_first_valid_witness :
  ask_question "Is speed critical for your use case?" None
    (World (λ p, Raise (OSError p)) ["maybe"; " YES "; "no"] [])
  = (Ok "yes",
     World (λ p, Raise (OSError p)) ["no"]
       [ Print "Is speed critical for your use case? (yes/no/I don't know)";
         Prompt "> ";
         Print "Invalid input. Please try again.";
         Print "Is speed critical for your use case? (yes/no/I don't know)";
         Prompt "> " ]).
Proof.
  apply (ask_question_first_valid "Is speed critical for your use case?" None
           (World (λ p, Raise (OSError p)) ["maybe"; " YES "; "no"] [])
           ["maybe"] " YES " ["no"]); reflexivity.
Defined.

(** X3: when no line left on standard input is valid, [ask_question]
    consumes them all, re-prompting after each, and ends in [EOFError]:
    it never returns a response that is not accepted. *)
Theorem ask_question_exhausted (question : string) (options : option (list string))
    (w : world) :
  forallb (λ l, negb (valid_line options l)) (stdin w) = true →
  ask_question question options w
  = (Raise EOFError,
     World (files w) []
       (stdout w ++ retry_events question options (stdin w)
                 ++ ask_events question options)).
Proof.
  intros Hrej. unfold ask_question. by rewrite ask_loop_exhausted.
Qed.

Lemma ask_question_exhausted_witness :
  ask_question "Is speed critical for your use case?" None
    (World (λ p, Raise (OSError p)) ["maybe"; "y"] [])
  = (Raise EOFError,
     World (λ p, Raise (OSError p)) []
       (retry_events "Is speed critical for your use case?" None ["maybe"; "y"]
        ++ ask_events "Is speed critical for your use case?" None)).
Proof.
  apply (ask_question_exhausted "Is speed critical for your use case?" None
           (World (λ p, Raise (OSError p)) ["maybe"; "y"] [])).
  reflexivity.
Defined.

(** ** Collecting the answers *)

Lemma ask_question_Ok_accepted question options w w' response :
  ask_question question options w = (Ok response, w') →
  response ∈ accepted options.
Proof.
  unfold ask_question. intros Hrun.
  destruct (first_valid_split options (stdin w))
    as [(rejected & line & rest & Hinp & Hrej & Hvalid)|Hall].
  - rewrite Hinp, ask_loop_accepts in Hrun by done.
    injection Hrun as <- _. by apply bool_decide_eq_true in Hvalid.
  - by rewrite ask_loop_exhausted in Hrun.
Qed.

Lemma valid_lines_rejected options rejected :
  forallb (λ l, negb (valid_line options l)) rejected = true →
  valid_lines options rejected = [].
Proof.
  unfold valid_lines. induction rejected as [|l rejected IH]; [done|].
  simpl. rewrite andb_true_iff, negb_true_iff. intros [Hl Hrej].
  rewrite filter_cons_False by congruence. by apply IH.
Qed.

Lemma valid_lines_split options rejected line rest :
  forallb (λ l, negb (valid_line options l)) rejected = true →
  valid_line options line = true →
  valid_lines options (rejected ++ line :: rest) = line :: valid_lines options rest.
Proof.
  intros Hrej Hvalid. unfold valid_lines.
  rewrite filter_app, filter_cons_True by done.
  fold (valid_lines options rejected). by rewrite valid_lines_rejected.
Qed.

Lemma dict_set_Forall_values {K V} `{EqDecision K} (P : V → Prop)
    (d : list (K * V)) k v :
  Forall P d.*2 → P v → Forall P (dict_set d k v).*2.
Proof.
  induction d as [|[k0 v0] d IH]; simpl; intros Hd Hv.
  - by repeat constructor.
  - apply Forall_cons in Hd as [H0 Hd].
    case_decide; simpl; constructor; auto.
Qed.

Lemma translate_accepted response :
  response ∈ accepted None → translate response ∈ ["High"; "Low"; "unknown"].
Proof.
  unfold accepted. simpl. rewrite !elem_of_cons, elem_of_nil.
  intros [->|[->|[->|[]]]]; vm_compute; set_solver.
Qed.

Lemma collect_answers_values qs acc w user_answers w' :
  collect_answers qs acc w = (Ok user_answers, w') →
  Forall (λ v, v ∈ ["High"; "Low"; "unknown"]) acc.*2 →
  Forall (λ v, v ∈ ["High"; "Low"; "unknown"]) user_answers.*2.
Proof.
  revert acc w. induction qs as [|q qs IH]; intros acc w; simpl.
  - unfold mret, Py_ret. by intros [= <- _].
  - unfold mbind, Py_bind.
    destruct (ask_question q.1 None w) as [[response|e] w1] eqn:Hask; [|done].
    intros Hrun Hacc. eapply IH; [done|].
    apply dict_set_Forall_values; [done|].
    eapply translate_accepted, ask_question_Ok_accepted. done.
Qed.

Lemma collect_answers_enough qs acc w :
  (length qs ≤ length (valid_lines None (stdin w)))%nat →
  ∃ user_answers w',
    collect_answers qs acc w = (Ok user_answers, w') ∧ files w' = files w.
Proof.
  revert acc w. induction qs as [|q qs IH]; intros acc w Hlen; simpl.
  - by eexists _, _.
  - destruct (first_valid_split None (stdin w))
      as [(rejected & line & rest & Hinp & Hrej & Hvalid)|Hall].
    + unfold mbind, Py_bind.
      rewrite (ask_question_first_valid_run _ _ _ _ _ _ Hinp Hrej Hvalid).
      rewrite Hinp, valid_lines_split in Hlen by done. simpl in Hlen.
      edestruct IH as (user_answers & w' & Hrun & Hfiles);
        [|rewrite Hrun; by eexists _, _]. simpl. lia.
    + rewrite valid_lines_rejected in Hlen by done. simpl in Hlen. lia.
Qed.

Lemma collect_answers_short qs acc w :
  (length (valid_lines None (stdin w)) < length qs)%nat →
  ∃ w', collect_answers qs acc w = (Raise EOFError, w') ∧ stdin w' = [].
Proof.
  revert acc w. induction qs as [|q qs IH]; intros acc w Hlen; simpl in *; [lia|].
  unfold mbind, Py_bind.
  destruct (first_valid_split None (stdin w))
    as [(rejected & line & rest & Hinp & Hrej & Hvalid)|Hall].
  - rewrite (ask_question_first_valid_run _ _ _ _ _ _ Hinp Hrej Hvalid).
    rewrite Hinp, valid_lines_split in Hlen by done. simpl in Hlen.
    apply IH. simpl. lia.
  - unfold ask_question. rewrite ask_loop_exhausted by done. by eexists.
Qed.

Lemma collect_answers_fold qs acc w :
  (length qs ≤ length (valid_lines None (stdin w)))%nat →
  ∃ w', collect_answers qs acc w
        = (Ok (foldl (λ acc ql, dict_set acc ql.1.2
                                  (translate (PyStr.lower (PyStr.strip ql.2))))
                     acc (zip qs (valid_lines None (stdin w)))), w').
Proof.
  revert acc w. induction qs as [|q qs IH]; intros acc w Hlen; simpl.
  - by eexists.
  - destruct (first_valid_split None (stdin w))
      as [(rejected & line & rest & Hinp & Hrej & Hvalid)|Hall].
    + unfold mbind, Py_bind.
      rewrite (ask_question_first_valid_run _ _ _ _ _ _ Hinp Hrej Hvalid).
      rewrite Hinp, valid_lines_split in * by done. simpl in Hlen.
      edestruct IH as (w' & Hrun); [|rewrite Hrun; by eexists]. simpl. lia.
    + rewrite valid_lines_rejected in Hlen by done. simpl in Hlen. lia.
Qed.

Lemma collect_answers_result w :
  (5 ≤ length (valid_lines None (stdin w)))%nat →
  ∃ w', collect_answers questions [] w = (Ok (answers_of (stdin w)), w').
Proof. intros Hlen. by apply collect_answers_fold. Qed.

(** X4: the answer map that [main] builds from its five questions has the
    five attributes as keys, in the order of the questions, and each of its
    values is "High", "Low" or "unknown". *)
Theorem collect_answers_map (w w' : world) (user_answers : list (string * string)) :
  collect_answers questions [] w = (Ok user_answers, w') →
  user_answers.*1 = [ "Security Level"; "Speed"; "Memory Usage";
                      "Hardware Compatibility"; "Energy Efficiency" ]
  ∧ Forall (λ v, v ∈ ["High"; "Low"; "unknown"]) user_answers.*2.
Proof.
  intros Hrun. split.
  - by rewrite (collect_answers_keys _ _ _ Hrun).
  - eapply collect_answers_values; [done|]. constructor.
Qed.

Lemma collect_answers_map_witness :
  sample_answers.*1 = [ "Security Level"; "Speed"; "Memory Usage";
                        "Hardware Compatibility"; "Energy Efficiency" ]
  ∧ Forall (λ v, v ∈ ["High"; "Low"; "unknown"]) sample_answers.*2.
Proof.
  apply (collect_answers_map sample_world
           (collect_answers questions [] sample_world).2 sample_answers).
  vm_compute. reflexivity.
Defined.

(** ** The whole run *)

Lemma load_table_world file_path w ciphers w1 :
  load_table file_path w = (Ok ciphers, w1) →
  files w1 = files w ∧ stdin w1 = stdin w.
Proof. rewrite load_table_run. by intros [= _ <-]. Qed.

(** [main] after a successful load: the questions, then the scoring, then
    the report; an exception of either of the first two ends the run. *)
Lemma main_after_load w ciphers w1 :
  load_table table_path w = (Ok ciphers, w1) → ciphers ≠ [] →
  main w
  = match collect_answers questions [] (write w1 welcome_events) with
    | (Raise e, w2) => (Raise e, w2)
    | (Ok user_answers, w2) =>
        match score_ciphers ciphers user_answers with
        | Raise e => (Raise e, write w2 (answers_events user_answers))
        | Ok scores =>
            report ciphers (sorted_reverse scores)
              (write w2 (answers_events user_answers ++ [ranking_header]))
        end
    end.
Proof.
  intros Hload Hne. unfold main. unfold mbind at 1, Py_bind at 1.
  rewrite Hload. destruct ciphers as [|c cs]; [done|].
  generalize (collect_answers questions []). intros collect.
  unfold mbind, Py_bind, print, emit, lift, write, welcome_events,
    answers_events, ranking_header. simpl.
  rewrite <-!app_assoc. simpl.
  match goal with
  | |- context [collect ?w0] =>
      destruct (collect w0) as [[user_answers|e] w2]; [|done]
  end. simpl.
  destruct (score_ciphers (c :: cs) user_answers) as [scores|e]; simpl;
    by rewrite <-!app_assoc.
Qed.

Lemma complete_rows_scorable ciphers user_answers :
  forallb complete_row ciphers = true →
  user_answers.*1 = questions.*2 →
  all_scorable user_answers ciphers = true.
Proof.
  intros Hcomplete Hkeys. apply all_scorable_Forall, Forall_forall.
  intros c Hc. rewrite forallb_forall in Hcomplete.
  pose proof (Hcomplete c (proj1 (list_elem_of_In _ _) Hc)) as Hrow.
  unfold complete_row in Hrow. rewrite forallb_forall in Hrow.
  assert (∀ col, col ∈ required_columns → has_value c col = true) as Hcols.
  { intros col Hcol. by apply Hrow, list_elem_of_In. }
  apply scorable_spec. split.
  - pose proof (Hcols "Cipher" ltac:(unfold required_columns; set_solver)) as Hn.
    unfold has_value, has_name in *.
    by destruct (c !! Some "Cipher") as [[]|].
  - intros item Hitem _. apply Hcols.
    assert (item.1 ∈ user_answers.*1) as Hin by by apply list_elem_of_fmap_2.
    rewrite Hkeys in Hin. unfold questions, required_columns in *.
    simpl in Hin. set_solver.
Qed.

Lemma scores_length ciphers answers scores :
  score_ciphers ciphers answers = Ok scores →
  length scores = length (first_occurrences (cipher_name <$> ciphers)).
Proof.
  intros Hrun. pose proof (score_ciphers_Ok_scorable _ _ _ Hrun) as Hall.
  apply all_scorable_Forall in Hall.
  destruct (score_ciphers_spec ciphers answers Hall) as (scores' & Hrun' & Hkeys & _).
  assert (scores' = scores) as -> by congruence.
  by rewrite <-Hkeys, length_fmap.
Qed.

(** X5: when the loaded dataset is not empty, every record holds a string
    under each required column, and standard input has at least five valid
    lines, [main] returns normally: it collects the answers, scoring
    succeeds, and after the answers it prints the ranking header followed
    by one recommendation for each of the first two entries of the ranking
    (a single one when the dataset has only one name). *)
Theorem main_complete_run (w w1 : world) (ciphers : list row) :
  load_table table_path w = (Ok ciphers, w1) →
  ciphers ≠ [] →
  forallb complete_row ciphers = true →
  (5 ≤ length (valid_lines None (stdin w)))%nat →
  ∃ user_answers w2 scores,
    collect_answers questions [] (write w1 welcome_events) = (Ok user_answers, w2)
    ∧ score_ciphers ciphers user_answers = Ok scores
    ∧ main w
      = (Ok (), write w2 (answers_events user_answers
                          ++ ranking_header
                             :: (recommendation ciphers <$> take 2 (sorted_reverse scores))))
    ∧ length (take 2 (sorted_reverse scores))
      = (2 `min` length (first_occurrences (cipher_name <$> ciphers)))%nat.
Proof.
  intros Hload Hne Hcomplete Hlen.
  destruct (load_table_world _ _ _ _ Hload) as [_ Hstdin].
  destruct (collect_answers_enough questions [] (write w1 welcome_events))
    as (user_answers & w2 & Hcollect & _).
  { simpl. by rewrite Hstdin. }
  pose proof (collect_answers_keys _ _ _ Hcollect) as Hkeys.
  pose proof (complete_rows_scorable _ _ Hcomplete Hkeys) as Hall.
  destruct (score_ciphers_spec ciphers user_answers
              (proj1 (all_scorable_Forall _ _) Hall)) as (scores & Hrun & _ & _).
  exists user_answers, w2, scores. split; [done|]. split; [done|]. split.
  - rewrite (main_after_load _ _ _ Hload Hne), Hcollect, Hrun.
    rewrite report_spec by by eapply scorable_has_name.
    unfold write. simpl. by rewrite <-!app_assoc.
  - rewrite length_take, (Permutation_length (sorted_reverse_Permutation scores)).
    by rewrite (scores_length _ _ _ Hrun).
Qed.

Lemma main_complete_run_witness :
  ∃ user_answers w2 scores,
    main single_world
    = (Ok (), write w2 (answers_events user_answers
                        ++ ranking_header
                           :: (recommendation
                                 (load_outcome (files single_world table_path)).1
                                 <$> take 2 (sorted_reverse scores))))
    ∧ length (take 2 (sorted_reverse scores)) = 1%nat.
Proof.
  destruct (main_complete_run single_world
              (write single_world (load_outcome (files single_world table_path)).2)
              (load_outcome (files single_world table_path)).1)
    as (user_answers & w2 & scores & _ & _ & Hmain & Hcount).
  - apply load_table_run.
  - intros Hnil. apply (f_equal length) in Hnil. vm_compute in Hnil. discriminate Hnil.
  - vm_compute. reflexivity.
  - vm_compute. lia.
  - exists user_answers, w2, scores. split; [exact Hmain|].
    rewrite Hcount. vm_compute. reflexivity.
Defined.

(** X6: when the answers were collected but some record of the loaded
    dataset cannot be scored against them (its "Cipher" entry is missing
    or unhashable, or it holds no string under an answered attribute, as a
    line cut short does), [main] ends with the exception raised by the
    scorer, right after printing the answers: nothing catches it and no
    ranking is printed. *)
Theorem main_unscorable_raises (w w1 w2 : world) (ciphers : list row)
    (user_answers : list (string * string)) :
  load_table table_path w = (Ok ciphers, w1) →
  ciphers ≠ [] →
  collect_answers questions [] (write w1 welcome_events) = (Ok user_answers, w2) →
  all_scorable user_answers ciphers = false →
  ∃ e, score_ciphers ciphers user_answers = Raise e
       ∧ main w = (Raise e, write w2 (answers_events user_answers)).
Proof.
  intros Hload Hne Hcollect Hbad.
  destruct (score_ciphers ciphers user_answers) as [scores|e] eqn:Hrun.
  { apply score_ciphers_Ok_scorable in Hrun. congruence. }
  exists e. split; [done|].
  by rewrite (main_after_load _ _ _ Hload Hne), Hcollect, Hrun.
Qed.

Lemma main_unscorable_raises_witness :
  ∃ e w2, main crash_world
          = (Raise e, write w2 (answers_events (answers_of (stdin crash_world)))).
Proof.
  destruct (collect_answers_result
              (write (write crash_world (load_outcome (files crash_world table_path)).2)
                 welcome_events))
    as (w2 & Hcollect); [vm_compute; lia|].
  destruct (main_unscorable_raises crash_world
              (write crash_world (load_outcome (files crash_world table_path)).2)
              w2 (load_outcome (files crash_world table_path)).1
              (answers_of (stdin crash_world)))
    as (e & _ & Hmain).
  - apply load_table_run.
  - intros Hnil. apply (f_equal length) in Hnil. vm_compute in Hnil. discriminate Hnil.
  - exact Hcollect.
  - vm_compute. reflexivity.
  - exists e, w2. exact Hmain.
Defined.

(** X7: when the dataset was loaded but standard input has fewer than five
    valid lines, [main] ends in [EOFError] with standard input used up:
    invalid lines are never taken for answers. *)
Theorem main_runs_out_of_input (w w1 : world) (ciphers : list row) :
  load_table table_path w = (Ok ciphers, w1) →
  ciphers ≠ [] →
  (length (valid_lines None (stdin w)) < 5)%nat →
  ∃ w', main w = (Raise EOFError, w') ∧ stdin w' = [].
Proof.
  intros Hload Hne Hlen.
  destruct (load_table_world _ _ _ _ Hload) as [_ Hstdin].
  destruct (collect_answers_short questions [] (write w1 welcome_events))
    as (w' & Hcollect & Hempty).
  { simpl. by rewrite Hstdin. }
  exists w'. by rewrite (main_after_load _ _ _ Hload Hne), Hcollect.
Qed.

Lemma main_runs_out_of_input_witness :
  ∃ w', main eof_world = (Raise EOFError, w') ∧ stdin w' = [].
Proof.
  apply (main_runs_out_of_input eof_world
           (write eof_world (load_outcome (files eof_world table_path)).2)
           (load_outcome (files eof_world table_path)).1).
  - apply load_table_run.
  - intros Hnil. apply (f_equal length) in Hnil. vm_compute in Hnil. discriminate Hnil.
  - vm_compute. lia.
Defined.

(** ** More on the scorer *)

Lemma foldM_ext {A B} (f g : B → A → result B) acc l :
  (∀ a x, x ∈ l → f a x = g a x) → foldM f acc l = foldM g acc l.
Proof.
  revert acc. induction l as [|x l IH]; intros acc Hfg; simpl; [done|].
  rewrite Hfg by set_solver. destruct (g acc x) as [acc'|]; simpl; [|done].
  apply IH. intros acc0 y Hy. apply Hfg. set_solver.
Qed.

Lemma score_cipher_answered answers scores cipher :
  score_cipher answers scores cipher = score_cipher (answered answers) scores cipher.
Proof.
  unfold score_cipher, answered. revert scores.
  induction answers as [|[attribute value] answers IH]; intros scores; [done|].
  rewrite filter_cons. cbn [snd]. case_decide as Hunk.
  - cbn [foldM].
    destruct (score_answer cipher scores (attribute, value)); simpl; [apply IH | done].
  - subst value. cbn [foldM score_answer].
    rewrite decide_True by done. simpl. apply IH.
Qed.

(** X8: the items answered "unknown" play no part in scoring: removing
    them from the answer map changes neither the scores nor the exception
    raised, so a record need not even have the columns of those items. *)
Theorem score_ciphers_ignores_unknown (ciphers : list row)
    (answers : list (string * string)) :
  score_ciphers ciphers answers = score_ciphers ciphers (answered answers).
Proof.
  unfold score_ciphers. destruct (init_scores ciphers) as [init|]; simpl; [|done].
  apply foldM_ext. intros scores cipher _. apply score_cipher_answered.
Qed.

Lemma Zsum_Permutation l1 l2 : l1 ≡ₚ l2 → Zsum l1 = Zsum l2.
Proof. induction 1; simpl; lia. Qed.

Lemma row_score_Permutation answers1 answers2 cipher :
  answers1 ≡ₚ answers2 → row_score answers1 cipher = row_score answers2 cipher.
Proof.
  intros Hperm. unfold row_score, answered.
  apply Zsum_Permutation. by rewrite Hperm.
Qed.

Lemma dict_eq (d1 d2 : scores_t) :
  d1.*1 = d2.*1 → NoDup d1.*1 →
  (∀ k, dict_get d1 k = dict_get d2 k) → d1 = d2.
Proof.
  revert d2. induction d1 as [|[k v] d1 IH]; intros [|[k2 v2] d2] Hkeys Hnd Hget;
    try done.
  rewrite !fmap_cons in Hkeys. rewrite fmap_cons in Hnd. cbn [fst] in *.
  injection Hkeys as <- Hkeys. apply NoDup_cons in Hnd as [Hk Hnd]. f_equal.
  - specialize (Hget k). simpl in Hget. rewrite !decide_True in Hget by done.
    congruence.
  - apply IH; [done..|]. intros k'.
    destruct (decide (k' = k)) as [->|Hne].
    + rewrite (proj2 (dict_get_None d1 k)) by done.
      symmetry. apply dict_get_None. by rewrite <-Hkeys.
    + specialize (Hget k'). simpl in Hget. by rewrite !decide_False in Hget.
Qed.

(** X9: on records that can be scored, the scores do not depend on the
    order of the items of the answer map. *)
Theorem score_ciphers_order_independent (ciphers : list row)
    (answers1 answers2 : list (string * string)) :
  answers1 ≡ₚ answers2 →
  all_scorable answers1 ciphers = true →
  ∃ scores, score_ciphers ciphers answers1 = Ok scores
            ∧ score_ciphers ciphers answers2 = Ok scores.
Proof.
  intros Hperm Hall1. apply all_scorable_Forall in Hall1.
  assert (Forall (λ c, scorable answers2 c = true) ciphers) as Hall2.
  { eapply Forall_impl; [exact Hall1|]. intros c. rewrite !scorable_spec.
    intros [Hn Hv]. split; [done|]. intros item Hitem. apply Hv.
    by rewrite Hperm. }
  destruct (score_ciphers_spec ciphers answers1 Hall1) as (s1 & Hrun1 & Hk1 & Hget1).
  destruct (score_ciphers_spec ciphers answers2 Hall2) as (s2 & Hrun2 & Hk2 & Hget2).
  exists s1. split; [done|]. rewrite Hrun2. f_equal. symmetry.
  apply dict_eq; [congruence | rewrite Hk1; apply NoDup_first_occurrences |].
  intros k. rewrite Hget1, Hget2. case_decide; [|done]. f_equal.
  unfold name_score. f_equal. apply list_fmap_ext.
  intros _ c _. by apply row_score_Permutation.
Qed.

Lemma score_ciphers_order_independent_witness :
  ∃ scores, score_ciphers sample_ciphers sample_answers = Ok scores
            ∧ score_ciphers sample_ciphers shuffled_answers = Ok scores.
Proof.
  apply (score_ciphers_order_independent sample_ciphers sample_answers shuffled_answers).
  - apply (bool_decide_unpack _). vm_compute. exact I.
  - vm_compute. reflexivity.
Defined.

Lemma contribution_nonneg attribute answer cipher_value :
  PyStr.lower answer ≠ "low" → 0 ≤ contribution attribute answer cipher_value.
Proof.
  intros Hlow. unfold contribution. repeat case_bool_decide; try lia. naive_solver.
Qed.

Lemma Zsum_nonneg l : Forall (λ z, 0 ≤ z) l → 0 ≤ Zsum l.
Proof. induction 1; simpl; lia. Qed.

(** X10: the penalty is the only source of negative scores: when no
    answered item is "low" (in any letter case), that is when the user
    never answers "no", every score is at least 0, repeated names
    included. *)
Theorem scores_nonnegative_without_low (ciphers : list row)
    (answers : list (string * string)) (scores : scores_t) (name : pyval) (s : Z) :
  (∀ item, item ∈ answers → PyStr.lower item.2 ≠ "low") →
  score_ciphers ciphers answers = Ok scores →
  dict_get scores name = Some s →
  0 ≤ s.
Proof.
  intros Hnolow Hrun Hs.
  pose proof (score_ciphers_Ok_scorable _ _ _ Hrun) as Hall.
  apply all_scorable_Forall in Hall.
  destruct (score_ciphers_spec ciphers answers Hall) as (scores' & Hrun' & _ & Hget).
  assert (scores' = scores) as -> by congruence.
  rewrite Hget in Hs. case_decide; [|done]. injection Hs as <-.
  unfold name_score. apply Zsum_nonneg. rewrite Forall_fmap, Forall_forall.
  intros c _. simpl. unfold row_score.
  apply Zsum_nonneg. rewrite Forall_fmap, Forall_forall.
  intros item Hitem. simpl. apply contribution_nonneg, Hnolow.
  unfold answered in Hitem. by apply list_elem_of_filter in Hitem as [_ ?].
Qed.

Lemma scores_nonnegative_without_low_witness : 0 ≤ 5.
Proof.
  apply (scores_nonnegative_without_low tie_ciphers tie_answers
           [(VStr "A", 5); (VStr "B", 5); (VStr "C", 3)] (VStr "A") 5).
  - intros item Hitem. apply list_elem_of_In in Hitem. simpl in Hitem.
    repeat (destruct Hitem as [<-|Hitem]; [vm_compute; discriminate|]).
    destruct Hitem.
  - vm_compute. reflexivity.
  - reflexivity.
Defined.

(** ** When scoring fails *)

Lemma foldM_Raise_inv {A B} (I : B → Prop) (body : B → A → result B) acc l e :
  I acc →
  (∀ a x a', I a → x ∈ l → body a x = Ok a' → I a') →
  foldM body acc l = Raise e →
  ∃ a x, I a ∧ x ∈ l ∧ body a x = Raise e.
Proof.
  revert acc. induction l as [|y l IH]; intros acc Hacc Hstep Hrun; [done|].
  simpl in Hrun. destruct (body acc y) as [acc'|e'] eqn:Hy; simpl in Hrun.
  - destruct (IH acc') as (a & x & Ha & Hx & Hbody); [| |done|].
    + eapply Hstep; [done| |done]. set_solver.
    + intros a x a' Ha Hx. apply Hstep; [done|set_solver].
    + exists a, x. split; [done|]. split; [set_solver|done].
  - injection Hrun as ->. exists acc, y. split; [done|]. split; [set_solver|done].
Qed.

Lemma dict_add_Ok_keys (scores scores' : scores_t) name delta :
  dict_add scores name delta = Ok scores' → scores'.*1 = scores.*1.
Proof.
  unfold dict_add. destruct (hashable name) as [name'|]; simpl; [|done].
  destruct (dict_get scores name') as [old|] eqn:Hold; [|done].
  intros [= <-]. apply dict_set_keys_old, dict_get_is_Some. by eexists.
Qed.

Lemma score_answer_Ok_keys cipher scores item scores' :
  score_answer cipher scores item = Ok scores' → scores'.*1 = scores.*1.
Proof.
  destruct item as [attribute value]. unfold score_answer.
  case_decide; [by intros [= <-]|].
  destruct (getitem cipher attribute) as [raw|]; simpl; [|done].
  destruct (strip_method raw) as [stripped|]; simpl; [|done].
  repeat (match goal with
          | |- context [if ?b then _ else _] => destruct b
          end);
    try (destruct (getitem cipher "Cipher") as [name|]; simpl; [|done];
         apply dict_add_Ok_keys).
  by intros [= <-].
Qed.

Lemma score_cipher_Ok_keys answers scores cipher scores' :
  score_cipher answers scores cipher = Ok scores' → scores'.*1 = scores.*1.
Proof.
  unfold score_cipher. revert scores.
  induction answers as [|item answers IH]; intros scores Hok.
  - by injection Hok as <-.
  - simpl in Hok. destruct (score_answer cipher scores item) as [s1|] eqn:Hstep; [|done].
    simpl in Hok. rewrite (IH _ Hok). by eapply score_answer_Ok_keys.
Qed.

(** With the record's name among the keys, one item can only fail on the
    lookup of its attribute or on the [strip] of a value that is no string. *)
Lemma score_answer_Raise cipher scores item e :
  has_name cipher = true →
  cipher_name cipher ∈ scores.*1 →
  score_answer cipher scores item = Raise e →
  item.2 ≠ "unknown"
  ∧ (e = KeyError (VStr item.1) ∧ cipher !! Some item.1 = None
     ∨ e = AttributeError ∧ has_value cipher item.1 = false).
Proof.
  intros Hname Hin Hrun. apply dict_get_is_Some in Hin as [old Hold].
  destruct (decide (item.2 = "unknown")) as [Hunk|Hunk].
  { rewrite (score_answer_spec _ _ _ old) in Hrun by done. done. }
  split; [done|].
  destruct (has_value cipher item.1) eqn:Hval.
  { rewrite (score_answer_spec _ _ _ old) in Hrun by done. done. }
  destruct item as [attribute value]. simpl in *.
  rewrite decide_False in Hrun by done.
  unfold has_value in Hval. unfold getitem in Hrun.
  destruct (cipher !! Some attribute) as [[s| |l]|]; simpl in Hrun;
    try done; injection Hrun as <-; auto.
Qed.

Lemma init_scores_Raise ciphers e :
  init_scores ciphers = Raise e → e = KeyError (VStr "Cipher") ∨ e = TypeError.
Proof.
  unfold init_scores. intros Hrun.
  apply (foldM_Raise_inv (λ _, True)) in Hrun as (a & c & _ & _ & Hbody); [|done..].
  unfold getitem in Hbody.
  destruct (c !! Some "Cipher") as [[]|]; simpl in Hbody; naive_solver.
Qed.

(** X11: [score_ciphers] returns a score map exactly when every record
    has a hashable "Cipher" entry and a string under every answered
    attribute; otherwise it raises. *)
Theorem score_ciphers_returns_iff (ciphers : list row) (answers : list (string * string)) :
  (∃ scores, score_ciphers ciphers answers = Ok scores)
  ↔ all_scorable answers ciphers = true.
Proof.
  split.
  - intros [scores Hrun]. by eapply score_ciphers_Ok_scorable.
  - intros Hall. apply all_scorable_Forall in Hall.
    destruct (score_ciphers_spec ciphers answers Hall) as (scores & Hrun & _).
    by exists scores.
Qed.

(** X12: the only exceptions [score_ciphers] raises are [KeyError] for the
    column "Cipher" or for the column of an answered attribute that a
    record lacks, [TypeError] for a "Cipher" entry that is a list, and
    [AttributeError] for a record that holds no string under an answered
    attribute. *)
Theorem score_ciphers_exceptions (ciphers : list row) (answers : list (string * string))
    (e : exn) :
  score_ciphers ciphers answers = Raise e →
  e = KeyError (VStr "Cipher")
  ∨ e = TypeError
  ∨ (∃ cipher item, cipher ∈ ciphers ∧ item ∈ answered answers
                    ∧ cipher !! Some item.1 = None ∧ e = KeyError (VStr item.1))
  ∨ (∃ cipher item, cipher ∈ ciphers ∧ item ∈ answered answers
                    ∧ has_value cipher item.1 = false ∧ e = AttributeError).
Proof.
  unfold score_ciphers. intros Hrun.
  destruct (init_scores ciphers) as [init|e0] eqn:Hinit; simpl in Hrun.
  2:{ injection Hrun as ->. apply init_scores_Raise in Hinit. tauto. }
  right. right.
  assert (Forall (λ c, has_name c = true) ciphers) as Hnames.
  { apply Forall_forall. intros c Hc.
    destruct (foldM_Ok_each _ _ _ _ Hinit c Hc) as (a & a' & Hbody).
    unfold getitem, has_name in *.
    destruct (c !! Some "Cipher") as [[]|]; by simpl in *. }
  rewrite (init_scores_spec _ Hnames) in Hinit. injection Hinit as <-.
  apply (foldM_Raise_inv (λ scores, ∀ c, c ∈ ciphers → cipher_name c ∈ scores.*1))
    in Hrun as (scores & c & Hkeys & Hc & Hbody).
  - unfold score_cipher in Hbody.
    apply (foldM_Raise_inv (λ s, cipher_name c ∈ s.*1))
      in Hbody as (s & item & Hs & Hitem & Hstep).
    + rewrite Forall_forall in Hnames.
      apply score_answer_Raise in Hstep as [Hunk [[-> Hnone]|[-> Hval]]];
        [| |by apply Hnames|done].
      * left. exists c, item. repeat split; try done.
        unfold answered. by apply list_elem_of_filter.
      * right. exists c, item. repeat split; try done.
        unfold answered. by apply list_elem_of_filter.
    + by apply Hkeys.
    + intros a x a' Ha _ Hok. by rewrite (score_answer_Ok_keys _ _ _ _ Hok).
  - intros c Hc. apply dict_get_is_Some. rewrite init_from_get.
    rewrite decide_True; [done|]. by apply list_elem_of_fmap_2.
  - intros a c a' Ha _ Hok c' Hc'.
    rewrite (score_cipher_Ok_keys _ _ _ _ Hok). by apply Ha.
Qed.

Lemma score_ciphers_exceptions_witness :
  AttributeError = KeyError (VStr "Cipher")
  ∨ AttributeError = TypeError
  ∨ (∃ cipher item, cipher ∈ (load_outcome (files crash_world table_path)).1
                    ∧ item ∈ answered tie_answers
                    ∧ cipher !! Some item.1 = None
                    ∧ AttributeError = KeyError (VStr item.1))
  ∨ (∃ cipher item, cipher ∈ (load_outcome (files crash_world table_path)).1
                    ∧ item ∈ answered tie_answers
                    ∧ has_value cipher item.1 = false
                    ∧ AttributeError = AttributeError).
Proof.
  apply (score_ciphers_exceptions (load_outcome (files crash_world table_path)).1
           tie_answers AttributeError).
  vm_compute. reflexivity.
Defined.

(** ** More on the loader, the normalizer and the reporter *)

Lemma missing_column_None_inv first col :
  missing_column first = None → col ∈ required_columns → is_Some (first !! Some col).
Proof.
  unfold missing_column. intros Hhead Hcol.
  destruct (filter _ required_columns) as [|c l] eqn:Hf; [|done].
  destruct (first !! Some col) eqn:Hlook; [by eexists|].
  exfalso. by eapply (filter_nil_not_elem_of _ _ col Hf).
Qed.

(** X13: every record that [load_table] returns has an entry for each of
    the six required columns (the entry of a line cut short being
    [None]). *)
Theorem load_table_records_have_columns (file_path : string) (w w' : world)
    (ciphers : list row) (cipher : row) (col : string) :
  load_table file_path w = (Ok ciphers, w') →
  cipher ∈ ciphers → col ∈ required_columns →
  is_Some (cipher !! Some col).
Proof.
  rewrite load_table_run. intros [= <- _] Hc Hcol. unfold load_outcome in Hc.
  destruct (files w file_path) as [lines|]; simpl in Hc; [|set_solver].
  destruct (DictReader lines) as [|first rest] eqn:Hparsed; simpl in Hc; [set_solver|].
  destruct (missing_column first) eqn:Hmiss; simpl in Hc; [set_solver|].
  destruct lines as [|fieldnames data]; [done|].
  destruct (DictReader_first _ _ _ _ Hparsed) as [fields ->].
  assert (col ∈ fieldnames) as Hin.
  { apply dec_stable. intros Hnot.
    apply (dict_row_lookup_None fieldnames fields) in Hnot.
    destruct (missing_column_None_inv _ col Hmiss Hcol) as [v Hv]. congruence. }
  rewrite <-Hparsed in Hc. simpl in Hc.
  apply list_elem_of_fmap in Hc as (fields' & -> & _).
  destruct (dict_row fieldnames fields' !! Some col) eqn:Hlook; [by eexists|].
  by apply dict_row_lookup_None in Hlook.
Qed.

Lemma load_table_records_have_columns_witness :
  is_Some (dict_row required_columns ["Blowfish"] !! Some "Speed").
Proof.
  apply (load_table_records_have_columns table_path crash_world
           (write crash_world (load_outcome (files crash_world table_path)).2)
           (load_outcome (files crash_world table_path)).1).
  - apply load_table_run.
  - apply list_elem_of_In. right. left. reflexivity.
  - apply list_elem_of_In. right. left. reflexivity.
Defined.

(** X14: the entries the reporter prints are the best ones: no entry left
    out of the first two of the ranking has a higher score than a printed
    one, and the first entry has the highest score of the whole map. *)
Theorem ranking_best_first (scores : scores_t) :
  (∀ shown hidden,
     shown ∈ take 2 (sorted_reverse scores) →
     hidden ∈ drop 2 (sorted_reverse scores) →
     hidden.2 ≤ shown.2)
  ∧ (∀ top rest entry,
       sorted_reverse scores = top :: rest → entry ∈ scores → entry.2 ≤ top.2).
Proof.
  pose proof (sorted_reverse_sorted scores) as Hsorted. split.
  - intros shown hidden Hshown Hhidden.
    rewrite <-(take_drop 2 (sorted_reverse scores)) in Hsorted.
    apply StronglySorted_app in Hsorted as (Hle & _ & _).
    by apply (Hle shown hidden).
  - intros top rest entry Heq Hentry. rewrite Heq in Hsorted.
    apply StronglySorted_cons in Hsorted as [Htop _].
    rewrite <-(sorted_reverse_Permutation scores), Heq in Hentry.
    apply elem_of_cons in Hentry as [->|Hentry]; [done|].
    rewrite Forall_forall in Htop. by apply (Htop entry).
Qed.

Lemma lower_char_idemp c : PyStr.lower_char (PyStr.lower_char c) = PyStr.lower_char c.
Proof. destruct c as [[] [] [] [] [] [] [] []]; reflexivity. Qed.

Lemma lower_idemp s : PyStr.lower (PyStr.lower s) = PyStr.lower s.
Proof. induction s as [|c s IH]; simpl; [done|]. by rewrite lower_char_idemp, IH. Qed.

(** X15: [normalize_value] never returns an empty list; every value it
    returns is in lower case; and it depends on the answer only through
    its lower-cased form. *)
Theorem normalize_value_lower_case (attribute value : string) :
  normalize_value attribute value ≠ []
  ∧ Forall (λ x, PyStr.lower x = x) (normalize_value attribute value)
  ∧ normalize_value attribute (PyStr.lower value) = normalize_value attribute value.
Proof.
  rewrite !normalize_value_entry, lower_idemp.
  destruct (table_entry attribute (PyStr.lower value)) as [matches|] eqn:Hentry; simpl.
  - apply table_entry_documented in Hentry.
    unfold documented_match_sets in Hentry.
    rewrite !elem_of_cons, elem_of_nil in Hentry.
    repeat (destruct Hentry as [Heq|Hentry];
            [injection Heq as _ _ ->;
             split; [done|]; split; [by repeat constructor|done]|]).
    destruct Hentry.
  - split; [done|]. split; [|done]. repeat constructor. apply lower_idemp.
Qed.

(** X16: when the name is borne by no record, or when no record has an
    "Explanation" entry (the file has no such column), the explanation
    found for a name is the placeholder text. *)
Theorem explanation_placeholder (ciphers : list row) (name : pyval) :
  forallb has_name ciphers = true →
  (name ∉ cipher_name <$> ciphers
   ∨ ∀ cipher, cipher ∈ ciphers → cipher !! Some "Explanation" = None) →
  find_explanation ciphers name = Ok (VStr "No explanation available").
Proof.
  intros Hnames Hcase.
  rewrite find_explanation_spec.
  2:{ apply Forall_forall. intros c Hc. rewrite forallb_forall in Hnames.
      by apply Hnames, list_elem_of_In. }
  unfold explanation_for.
  destruct (filter _ ciphers) as [|c l] eqn:Hf; [done|]. simpl.
  assert (c ∈ filter (λ c, cipher_name c = name) ciphers) as Hc
    by (rewrite Hf; set_solver).
  apply list_elem_of_filter in Hc as [Hname Hc].
  destruct Hcase as [Hnot|Hnone].
  - destruct Hnot. rewrite <-Hname. by apply list_elem_of_fmap_2.
  - by rewrite (Hnone c Hc).
Qed.

Lemma explanation_placeholder_witness :
  find_explanation sample_ciphers (VStr "AES") = Ok (VStr "No explanation available").
Proof.
  apply (explanation_placeholder sample_ciphers (VStr "AES")).
  - vm_compute. reflexivity.
  - right. intros cipher Hc. apply list_elem_of_In in Hc.
    destruct Hc as [<-|[<-|[]]]; vm_compute; reflexivity.
Defined.

(** X17: the answers are read off the valid lines of standard input, in
    order: the answer to the i-th question is the translation of the i-th
    valid line (stripped and lower-cased), whatever invalid lines come in
    between. *)
Theorem collect_answers_from_valid_lines (w : world)
    (l1 l2 l3 l4 l5 : string) (more : list string) :
  valid_lines None (stdin w) = l1 :: l2 :: l3 :: l4 :: l5 :: more →
  ∃ w', collect_answers questions [] w
        = (Ok [ ("Security Level", translate (PyStr.lower (PyStr.strip l1)));
                ("Speed", translate (PyStr.lower (PyStr.strip l2)));
                ("Memory Usage", translate (PyStr.lower (PyStr.strip l3)));
                ("Hardware Compatibility", translate (PyStr.lower (PyStr.strip l4)));
                ("Energy Efficiency", translate (PyStr.lower (PyStr.strip l5))) ],
           w').
Proof.
  intros Hvalid.
  destruct (collect_answers_fold questions [] w) as [w' Hrun].
  { rewrite Hvalid. simpl. lia. }
  exists w'. rewrite Hrun, Hvalid. reflexivity.
Qed.

Lemma collect_answers_from_valid_lines_witness :
  ∃ w', collect_answers questions [] single_world
        = (Ok [ ("Security Level", "High"); ("Speed", "Low"); ("Memory Usage", "Low");
                ("Hardware Compatibility", "unknown"); ("Energy Efficiency", "High") ],
           w').
Proof.
  apply (collect_answers_from_valid_lines single_world
           "Yes" "no" " NO" "i don't know" "yes" []).
  vm_compute. reflexivity.
Defined.
